(** * MsgAssembler: the ROS message assembling cell of object_recognition_core

    A shallow embedding of [src/io/ros/MsgAssembler.cpp]: the colour helper
    [hsv2rgb] and the cell's [process] method, which turns a vector of pose
    results into a pose array, a JSON payload of object ids and a marker
    array, and which maintains the static table [object_id_to_index_]. *)

From Stdlib Require Import ZArith NArith QArith Qabs Qround Ascii String
  Floats.SpecFloat.
From stdpp Require Import gmap strings list fin_maps.

Local Open Scope Z_scope.

(** ** Machine numbers *)

(** [float] is IEEE binary32 and [double] is IEEE binary64; both are values
    of [spec_float], rounded by the operations of the respective format. *)
Module F32.
Definition prec : Z := 24.
Definition emax : Z := 128.
Definition add := SFadd prec emax.
Definition sub := SFsub prec emax.
Definition mul := SFmul prec emax.
Definition div := SFdiv prec emax.
Definition sqrt := SFsqrt prec emax.
Definition ltb := SFltb.
(** conversion of an integer to [float] *)
Definition of_Z (n : Z) : spec_float := binary_normalize prec emax n 0 false.
End F32.

Module F64.
Definition prec : Z := 53.
Definition emax : Z := 1024.
Definition add := SFadd prec emax.
Definition sub := SFsub prec emax.
Definition mul := SFmul prec emax.
Definition div := SFdiv prec emax.
Definition of_Z (n : Z) : spec_float := binary_normalize prec emax n 0 false.
End F64.

(** Rounding of a value of any format into the format [prec], [emax]: the
    conversion [double] to [float], and [float] to [double], which is exact
    and only writes the number in the wider format. *)
Definition SFround (prec emax : Z) (x : spec_float) : spec_float :=
  match x with
  | S754_finite s m e => binary_normalize prec emax (cond_Zopp s (Zpos m)) e s
  | _ => x
  end.

Definition double_to_float : spec_float -> spec_float := SFround F32.prec F32.emax.
Definition float_to_double : spec_float -> spec_float := SFround F64.prec F64.emax.

(** A decimal literal [n/d] of type [double] is the binary64 number nearest
    to the quotient, which is what one correctly rounded division gives. *)
Definition double_lit (n d : Z) : spec_float := F64.div (F64.of_Z n) (F64.of_Z d).

(** [fmodf] of the C library: the remainder of the division truncated
    towards zero; it is exact and has the sign of its first argument. *)
Definition fmodf (x y : spec_float) : spec_float :=
  match x, y with
  | S754_nan, _ | _, S754_nan => S754_nan
  | S754_infinity _, _ => S754_nan
  | _, S754_zero _ => S754_nan
  | S754_zero _, _ => x
  | S754_finite _ _ _, S754_infinity _ => x
  | S754_finite sx mx ex, S754_finite _ my ey =>
      let e := Z.min ex ey in
      let X := Z.shiftl (Zpos mx) (ex - e) in
      let Y := Z.shiftl (Zpos my) (ey - e) in
      binary_normalize F32.prec F32.emax (cond_Zopp sx (Z.rem X Y)) e sx
  end.

(** ** [hsv2rgb] *)

Definition f32_0 : spec_float := F32.of_Z 0.
Definition f32_1 : spec_float := F32.of_Z 1.

Record RGB := { red : spec_float; green : spec_float; blue : spec_float }.

(** The body of [hsv2rgb], statement by statement.  [h / 60.0] and the
    product defining [x] are computed in [double] (one operand is a
    [double] literal) and rounded when stored into a [float]. *)
Definition hsv2rgb (h s v : spec_float) : RGB :=
  let c := F32.mul v s in
  let hprime := double_to_float (F64.div (float_to_double h) (F64.of_Z 60)) in
  let x := double_to_float
             (F64.mul (float_to_double c)
                (F64.sub (F64.of_Z 1)
                   (float_to_double
                      (SFabs (F32.sub (fmodf hprime (F32.of_Z 2)) (F32.of_Z 1)))))) in
  let '(r, g, b) :=
    if F32.ltb hprime (F32.of_Z 1) then (c, x, f32_0)
    else if F32.ltb hprime (F32.of_Z 2) then (x, c, f32_0)
    else if F32.ltb hprime (F32.of_Z 3) then (f32_0, c, x)
    else if F32.ltb hprime (F32.of_Z 4) then (f32_0, x, c)
    else if F32.ltb hprime (F32.of_Z 5) then (x, f32_0, c)
    else if F32.ltb hprime (F32.of_Z 6) then (c, f32_0, x)
    else (f32_0, f32_0, f32_0) in
  let m := F32.sub v c in
  {| red := F32.add r m; green := F32.add g m; blue := F32.add b m |}.

(** ** Message records

    The message types come from the ROS packages [std_msgs],
    [geometry_msgs] and [visualization_msgs]; the records keep the fields
    that [process] writes, with the types the message definitions give them
    ([float64] coordinates, [float32] colour channels, [int32] marker id,
    type and action).  A freshly constructed message is all zero. *)

Record Time := { sec : Z; nsec : Z }.
Definition Time0 : Time := {| sec := 0; nsec := 0 |}.
(** [ros::Duration(n)] for an integral number [n] of seconds *)
Definition Duration (n : Z) : Time := {| sec := n; nsec := 0 |}.

Record Header := { stamp : Time; frame_id : string }.
Definition Header0 : Header := {| stamp := Time0; frame_id := EmptyString |}.

Record Point := { px : spec_float; py : spec_float; pz : spec_float }.
Record Quaternion :=
  { qx : spec_float; qy : spec_float; qz : spec_float; qw : spec_float }.
Record Pose := { position : Point; orientation : Quaternion }.

Definition f64_0 : spec_float := F64.of_Z 0.
Definition Point0 : Point := {| px := f64_0; py := f64_0; pz := f64_0 |}.
Definition Quaternion0 : Quaternion :=
  {| qx := f64_0; qy := f64_0; qz := f64_0; qw := f64_0 |}.
Definition Pose0 : Pose := {| position := Point0; orientation := Quaternion0 |}.

Record Vector3 := { vx : spec_float; vy : spec_float; vz : spec_float }.
Record ColorRGBA :=
  { color_r : spec_float; color_g : spec_float; color_b : spec_float;
    color_a : spec_float }.

(** Constants of [visualization_msgs/Marker]. *)
Definition TEXT_VIEW_FACING : Z := 9.
Definition MESH_RESOURCE : Z := 10.
Definition ADD : Z := 0.

Record Marker := {
  header : Header;
  id : Z;
  type : Z;
  action : Z;
  pose : Pose;
  scale : Vector3;
  color : ColorRGBA;
  lifetime : Time;
  text : string;
  mesh_resource : string
}.

Record PoseArray := { pa_header : Header; poses : list Pose }.
Record MarkerArray := { markers : list Marker }.
Record StringMsg := { data : string }.

(** The part of [sensor_msgs::Image] that is read: its header. *)
Record Image := { image_header : Header }.

(** ** Pose results

    [common::PoseResult] is declared outside this file; [process] uses its
    accessors only: the object id (an [ObjectId] is a [std::string]), the
    rotation [R] and translation [T] as [cv::Mat_<float>], read by
    coefficient, and the lookup of a string attribute. *)
Abbreviation ObjectId := string (only parsing).

Record PoseResult := {
  object_id : ObjectId;
  R : nat -> nat -> spec_float;
  T : nat -> spec_float;
  get_attribute : string -> string
}.

(** ** The Eigen quaternion of a rotation matrix *)

Module Eigen.

Record Matrix3f := {
  m00 : spec_float; m01 : spec_float; m02 : spec_float;
  m10 : spec_float; m11 : spec_float; m12 : spec_float;
  m20 : spec_float; m21 : spec_float; m22 : spec_float
}.

Definition coeff (m : Matrix3f) (i j : nat) : spec_float :=
  match i, j with
  | 0%nat, 0%nat => m00 m | 0%nat, 1%nat => m01 m | 0%nat, _ => m02 m
  | 1%nat, 0%nat => m10 m | 1%nat, 1%nat => m11 m | 1%nat, _ => m12 m
  | _, 0%nat => m20 m | _, 1%nat => m21 m | _, _ => m22 m
  end.

Record Quaternionf :=
  { x : spec_float; y : spec_float; z : spec_float; w : spec_float }.

(** [coeffs()] of a quaternion are stored in the order x, y, z, w. *)
Definition set_coeff (q : Quaternionf) (i : nat) (v : spec_float) : Quaternionf :=
  match i with
  | 0%nat => {| x := v; y := y q; z := z q; w := w q |}
  | 1%nat => {| x := x q; y := v; z := z q; w := w q |}
  | 2%nat => {| x := x q; y := y q; z := v; w := w q |}
  | _ => {| x := x q; y := y q; z := z q; w := v |}
  end.

Definition f32_half : spec_float := F32.div (F32.of_Z 1) (F32.of_Z 2).

(** Modelled from the spec: the constructor [Eigen::Quaternion<float>] from
    a [Matrix3f] is a routine of the Eigen library, which is not under src/.
    The spec calls it the standard rotation-matrix to quaternion conversion;
    this is that conversion as Eigen computes it (after Shoemake), in
    [float]: by the trace when it is positive, else by the largest diagonal
    coefficient. *)
Definition quaternion_of_matrix (mat : Matrix3f) : Quaternionf :=
  let t := F32.add (F32.add (m00 mat) (m11 mat)) (m22 mat) in
  if F32.ltb f32_0 t then
    let t := F32.sqrt (F32.add t f32_1) in
    let qw := F32.mul f32_half t in
    let t := F32.div f32_half t in
    {| x := F32.mul (F32.sub (m21 mat) (m12 mat)) t;
       y := F32.mul (F32.sub (m02 mat) (m20 mat)) t;
       z := F32.mul (F32.sub (m10 mat) (m01 mat)) t;
       w := qw |}
  else
    let i := if F32.ltb (m00 mat) (m11 mat) then 1%nat else 0%nat in
    let i := if F32.ltb (coeff mat i i) (m22 mat) then 2%nat else i in
    let j := ((i + 1) mod 3)%nat in
    let k := ((j + 1) mod 3)%nat in
    let t := F32.sqrt
               (F32.add
                  (F32.sub (F32.sub (coeff mat i i) (coeff mat j j)) (coeff mat k k))
                  f32_1) in
    let q := set_coeff {| x := f32_0; y := f32_0; z := f32_0; w := f32_0 |}
               i (F32.mul f32_half t) in
    let t := F32.div f32_half t in
    let q := set_coeff q 3 (F32.mul (F32.sub (coeff mat k j) (coeff mat j k)) t) in
    let q := set_coeff q j (F32.mul (F32.add (coeff mat j i) (coeff mat i j)) t) in
    set_coeff q k (F32.mul (F32.add (coeff mat k i) (coeff mat i k)) t).

Definition mat_of_Z (a b c d e f g h i : Z) : Matrix3f :=
  {| m00 := F32.of_Z a; m01 := F32.of_Z b; m02 := F32.of_Z c;
     m10 := F32.of_Z d; m11 := F32.of_Z e; m12 := F32.of_Z f;
     m20 := F32.of_Z g; m21 := F32.of_Z h; m22 := F32.of_Z i |}.

End Eigen.

(** ** JSON values and their text *)

Module or_json.

(** The value tree of [or_json] (the bundled json_spirit), restricted to
    the three kinds of value that [process] builds.  An [mObject] is a
    [std::map] from names to values, kept here as the list of its pairs in
    key order. *)
#[local] Unset Elimination Schemes.
Inductive mValue : Type :=
  | mString (s : string)
  | mArray (vs : list mValue)
  | mObject (fields : list (string * mValue)).
#[local] Set Elimination Schemes.

Definition dquote : ascii := "034"%char.
Definition backslash : ascii := "092"%char.

Definition hex_digit (n : N) : ascii :=
  ascii_of_N (if (n <? 10)%N then 48 + n else 87 + n).

Definition is_control (c : ascii) : bool := (N_of_ascii c <? 32)%N.

(** The text of one character inside a JSON string, put in front of [k]. *)
Definition escape_char (c : ascii) (k : string) : string :=
  if Ascii.eqb c dquote then String backslash (String dquote k)
  else if Ascii.eqb c backslash then String backslash (String backslash k)
  else if is_control c then
    String backslash (String "u" (String "0" (String "0"
      (String (hex_digit (N_of_ascii c / 16)) (String (hex_digit (N_of_ascii c mod 16)) k)))))
  else String c k.

Fixpoint escape (s : string) (k : string) : string :=
  match s with
  | EmptyString => k
  | String c s' => escape_char c (escape s' k)
  end.

Definition write_string (s : string) (k : string) : string :=
  String dquote (escape s (String dquote k)).

(** The items of an array or the members of an object, each written by
    [w], with a comma and a space between two of them. *)
Definition write_list {A : Type} (w : A -> string -> string)
  : list A -> string -> string :=
  fix items (vs : list A) (k : string) : string :=
    match vs with
    | [] => k
    | [v] => w v k
    | v :: vs' => w v (String "," (String " " (items vs' k)))
    end.

(** Modelled from the spec: [or_json::write] is declared in the bundled
    json_spirit headers, which are not under src/.  The spec gives its
    output as the JSON text [{"object_ids": [<identifier>, ...]}]: an object
    in braces with [name: value] members, an array in brackets, items
    separated by a comma and a space, identifiers as JSON strings.  [write]
    puts the text of a value in front of [k]. *)
Fixpoint write (v : mValue) (k : string) : string :=
  match v with
  | mString s => write_string s k
  | mArray vs => String "[" (write_list write vs (String "]" k))
  | mObject fields =>
      String "{"
        (write_list
           (fun (f : string * mValue) k =>
              write_string (fst f) (String ":" (String " " (write (snd f) k))))
           fields (String "}" k))
  end.

(** *** Reading the text back *)

Definition is_ws (c : ascii) : bool :=
  Ascii.eqb c " " || Ascii.eqb c "009" || Ascii.eqb c "010" || Ascii.eqb c "013".

Fixpoint skip_ws (s : string) : string :=
  match s with
  | String c s' => if is_ws c then skip_ws s' else s
  | EmptyString => s
  end.

Definition hex_value (c : ascii) : option N :=
  let n := N_of_ascii c in
  if (48 <=? n)%N && (n <=? 57)%N then Some (n - 48)%N
  else if (97 <=? n)%N && (n <=? 102)%N then Some (n - 87)%N
  else if (65 <=? n)%N && (n <=? 70)%N then Some (n - 55)%N
  else None.

Definition simple_escape (c : ascii) : option ascii :=
  if Ascii.eqb c dquote then Some dquote
  else if Ascii.eqb c backslash then Some backslash
  else if Ascii.eqb c "/" then Some "/"%char
  else if Ascii.eqb c "b" then Some "008"%char
  else if Ascii.eqb c "f" then Some "012"%char
  else if Ascii.eqb c "n" then Some "010"%char
  else if Ascii.eqb c "r" then Some "013"%char
  else if Ascii.eqb c "t" then Some "009"%char
  else None.

(** The characters of a JSON string after its opening quote, up to the
    closing quote; the result is the string and the text that follows. *)
Fixpoint parse_chars (s : string) : option (string * string) :=
  match s with
  | EmptyString => None
  | String c s1 =>
      if Ascii.eqb c dquote then Some (EmptyString, s1)
      else if Ascii.eqb c backslash then
        match s1 with
        | String "u" (String h1 (String h2 (String h3 (String h4 s2)))) =>
            match hex_value h1, hex_value h2, hex_value h3, hex_value h4 with
            | Some a, Some b, Some c, Some d =>
                let n := (((a * 16 + b) * 16 + c) * 16 + d)%N in
                if (n <? 256)%N then
                  match parse_chars s2 with
                  | Some (str, rest) => Some (String (ascii_of_N n) str, rest)
                  | None => None
                  end
                else None
            | _, _, _, _ => None
            end
        | String e s2 =>
            match simple_escape e with
            | Some c' =>
                match parse_chars s2 with
                | Some (str, rest) => Some (String c' str, rest)
                | None => None
                end
            | None => None
            end
        | EmptyString => None
        end
      else if is_control c then None
      else
        match parse_chars s1 with
        | Some (str, rest) => Some (String c str, rest)
        | None => None
        end
  end.

(** A reader of the JSON texts made of strings, arrays and objects, with
    optional white space between the tokens.  [parse_value] reads one value
    and returns it with the rest of the text; [parse_items] reads the items
    of an array after its opening bracket (or after a comma) up to the
    closing bracket, [parse_members] the members of an object.  The
    recursion is on a bound [fuel] of the nesting and item count. *)
Fixpoint parse_value (fuel : nat) (s : string) : option (mValue * string) :=
  match fuel with
  | O => None
  | S fuel =>
      match skip_ws s with
      | String c s1 =>
          if Ascii.eqb c dquote then
            match parse_chars s1 with
            | Some (str, rest) => Some (mString str, rest)
            | None => None
            end
          else if Ascii.eqb c "[" then
            match skip_ws s1 with
            | String c2 s2 =>
                if Ascii.eqb c2 "]" then Some (mArray [], s2)
                else
                  match parse_items fuel s1 with
                  | Some (vs, rest) => Some (mArray vs, rest)
                  | None => None
                  end
            | EmptyString => None
            end
          else if Ascii.eqb c "{" then
            match skip_ws s1 with
            | String c2 s2 =>
                if Ascii.eqb c2 "}" then Some (mObject [], s2)
                else
                  match parse_members fuel s1 with
                  | Some (fs, rest) => Some (mObject fs, rest)
                  | None => None
                  end
            | EmptyString => None
            end
          else None
      | EmptyString => None
      end
  end
with parse_items (fuel : nat) (s : string) : option (list mValue * string) :=
  match fuel with
  | O => None
  | S fuel =>
      match parse_value fuel s with
      | Some (v, rest) =>
          match skip_ws rest with
          | String c s1 =>
              if Ascii.eqb c "]" then Some ([v], s1)
              else if Ascii.eqb c "," then
                match parse_items fuel s1 with
                | Some (vs, rest') => Some (v :: vs, rest')
                | None => None
                end
              else None
          | EmptyString => None
          end
      | None => None
      end
  end
with parse_members (fuel : nat) (s : string)
  : option (list (string * mValue) * string) :=
  match fuel with
  | O => None
  | S fuel =>
      match skip_ws s with
      | String c s1 =>
          if Ascii.eqb c dquote then
            match parse_chars s1 with
            | Some (name, rest) =>
                match skip_ws rest with
                | String c2 s2 =>
                    if Ascii.eqb c2 ":" then
                      match parse_value fuel s2 with
                      | Some (v, rest2) =>
                          match skip_ws rest2 with
                          | String c3 s3 =>
                              if Ascii.eqb c3 "}" then Some ([(name, v)], s3)
                              else if Ascii.eqb c3 "," then
                                match parse_members fuel s3 with
                                | Some (fs, rest3) => Some ((name, v) :: fs, rest3)
                                | None => None
                                end
                              else None
                          | EmptyString => None
                          end
                      | None => None
                      end
                    else None
                | EmptyString => None
                end
            | None => None
            end
          else None
      | EmptyString => None
      end
  end.

(** A text is read as one value, followed by white space only. *)
Definition parse (s : string) : option mValue :=
  match parse_value (String.length s) s with
  | Some (v, rest) =>
      match skip_ws rest with
      | EmptyString => Some v
      | String _ _ => None
      end
  | None => None
  end.

End or_json.


(** ** The cell *)

(** Conversions between the integer types: [size_t] or [unsigned int] to
    [unsigned int], and [unsigned int] to the [int32] of a marker id. *)
Definition to_unsigned_int (n : Z) : Z := n mod 2 ^ 32.
Definition to_int32 (n : Z) : Z :=
  let m := n mod 2 ^ 32 in if m <? 2 ^ 31 then m else m - 2 ^ 32.

(** The static member [object_id_to_index_] is a
    [std::map<ObjectId, unsigned int>]. *)
Abbreviation IndexTable := (gmap string Z) (only parsing).

(** [object_id_to_index_.size()], a [size_t]. *)
Definition table_size (tbl : IndexTable) : Z := Z.of_nat (size tbl).

(** One step of the first loop.  In
    [object_id_to_index_[id] = object_id_to_index_.size()] the right operand
    is evaluated first (the rule of C++17 for an assignment), so the index
    stored is the size before the entry is created. *)
Definition index_object (tbl : IndexTable) (pose_result : PoseResult) : IndexTable :=
  match tbl !! object_id pose_result with
  | None => <[object_id pose_result := to_unsigned_int (table_size tbl)]> tbl
  | Some _ => tbl
  end.

Definition index_objects (tbl : IndexTable) (pose_results : list PoseResult)
  : IndexTable :=
  fold_left index_object pose_results tbl.

(** [std::map::operator[]]: the value stored under the key; a key that is
    absent is first entered with the value 0. *)
Definition subscript (tbl : IndexTable) (k : string) : Z * IndexTable :=
  match tbl !! k with
  | Some v => (v, tbl)
  | None => (0, <[k := 0]> tbl)
  end.

(** The state of the second loop: the counter [marker_id], the vector
    [poses] of the pose array, the markers pushed so far and the table. *)
Record LoopState := {
  marker_id : Z;
  ls_poses : list Pose;
  ls_markers : list Marker;
  ls_table : IndexTable
}.

Definition rotation_matrix (pose_result : PoseResult) : Eigen.Matrix3f :=
  let R := R pose_result in
  {| Eigen.m00 := R 0 0; Eigen.m01 := R 0 1; Eigen.m02 := R 0 2;
     Eigen.m10 := R 1 0; Eigen.m11 := R 1 1; Eigen.m12 := R 1 2;
     Eigen.m20 := R 2 0; Eigen.m21 := R 2 1; Eigen.m22 := R 2 2 |}%nat.

Definition msg_pose (pose_result : PoseResult) : Pose :=
  let quaternion := Eigen.quaternion_of_matrix (rotation_matrix pose_result) in
  let T := T pose_result in
  {| position :=
       {| px := float_to_double (T 0%nat);
          py := float_to_double (T 1%nat);
          pz := float_to_double (T 2%nat) |};
     orientation :=
       {| qx := float_to_double (Eigen.x quaternion);
          qy := float_to_double (Eigen.y quaternion);
          qz := float_to_double (Eigen.z quaternion);
          qw := float_to_double (Eigen.w quaternion) |} |}.

(** [(360.0 / object_id_to_index_.size()) * index], computed in [double]
    and stored into a [float]. *)
Definition hue_of (size index : Z) : spec_float :=
  double_to_float (F64.mul (F64.div (F64.of_Z 360) (F64.of_Z size)) (F64.of_Z index)).

Definition saturation : spec_float := double_to_float (double_lit 7 10).
Definition value : spec_float := F32.of_Z 1.

Definition mesh_marker (hdr : Header) (pose_result : PoseResult)
    (rgb : RGB) (marker_id : Z) : Marker :=
  {| header := hdr;
     id := to_int32 marker_id;
     type := MESH_RESOURCE;
     action := ADD;
     pose := msg_pose pose_result;
     scale := {| vx := F64.of_Z 1; vy := F64.of_Z 1; vz := F64.of_Z 1 |};
     color := {| color_r := red rgb; color_g := green rgb; color_b := blue rgb;
                 color_a := double_to_float (double_lit 75 100) |};
     lifetime := Duration 30;
     text := EmptyString;
     mesh_resource := get_attribute pose_result "mesh_uri" |}.

(** The text marker is the same [marker] variable after the mesh marker
    was pushed, with the fields below assigned anew. *)
Definition text_marker (marker : Marker) (pose_result : PoseResult) : Marker :=
  {| header := header marker;
     id := id marker;
     type := TEXT_VIEW_FACING;
     action := action marker;
     pose := pose marker;
     scale := {| vx := vx (scale marker); vy := vy (scale marker);
                 vz := double_lit 3 100 |};
     color := {| color_r := F32.of_Z 1; color_g := F32.of_Z 1;
                 color_b := F32.of_Z 1; color_a := F32.of_Z 1 |};
     lifetime := Duration 10;
     text := get_attribute pose_result "name";
     mesh_resource := mesh_resource marker |}.

(** The two markers pushed for a pose result, from the table size and the
    index read for its object id and from the value of the counter. *)
Definition item_markers (hdr : Header) (size index marker_id : Z)
    (pose_result : PoseResult) : list Marker :=
  let rgb := hsv2rgb (hue_of size index) saturation value in
  let marker := mesh_marker hdr pose_result rgb marker_id in
  [marker; text_marker marker pose_result].

(** The body of the second loop.  The product that gives the hue reads
    the table twice, by [size()] and by [operator[]], in an order that the
    language leaves open; the size is read first here, and the order has no
    effect as long as the subscript finds its key. *)
Definition assemble (hdr : Header) (st : LoopState) (pose_result : PoseResult)
  : LoopState :=
  let poses := <[Z.to_nat (marker_id st) := msg_pose pose_result]> (ls_poses st) in
  let size := table_size (ls_table st) in
  let '(index, tbl) := subscript (ls_table st) (object_id pose_result) in
  {| marker_id := to_unsigned_int (marker_id st + 1);
     ls_poses := poses;
     ls_markers := ls_markers st ++ item_markers hdr size index (marker_id st) pose_result;
     ls_table := tbl |}.

Definition assemble_all (hdr : Header) (st : LoopState)
    (pose_results : list PoseResult) : LoopState :=
  fold_left (assemble hdr) pose_results st.

(** The value tree of the third block and its text. *)
Definition object_ids_value (pose_results : list PoseResult) : or_json.mValue :=
  or_json.mObject
    [("object_ids",
      or_json.mArray (map (fun pr => or_json.mString (object_id pr)) pose_results))].

Record Outputs := {
  pose_message : PoseArray;
  object_ids_message : StringMsg;
  marker_message : MarkerArray
}.

(** The header of the pose array: the frame id is assigned only when the
    image pointer is not null, the stamp always. *)
Definition make_header (image_message : option Image) (now : Time) : Header :=
  {| stamp := now;
     frame_id := match image_message with
                 | Some img => frame_id (image_header img)
                 | None => frame_id Header0
                 end |}.

(** The state in which the second loop starts: [poses] was resized to the
    number of pose results, [marker_id] is 0 and [marker_array] is empty. *)
Definition start_state (tbl : IndexTable) (pose_results : list PoseResult)
  : LoopState :=
  {| marker_id := 0;
     ls_poses := replicate (length pose_results) Pose0;
     ls_markers := [];
     ls_table := tbl |}.

(** [process]: the inputs are the image message (a pointer that may be
    null), the reading [now] of the clock and the pose results; the static
    table is passed in and returned. *)
Definition process (image_message : option Image) (now : Time)
    (pose_results : list PoseResult) (tbl : IndexTable) : Outputs * IndexTable :=
  let hdr := make_header image_message now in
  let tbl := index_objects tbl pose_results in
  let st := assemble_all hdr (start_state tbl pose_results) pose_results in
  ({| pose_message := {| pa_header := hdr; poses := ls_poses st |};
      object_ids_message :=
        {| data := or_json.write (object_ids_value pose_results) EmptyString |};
      marker_message := {| markers := ls_markers st |} |},
   ls_table st).

(** A table is reachable when it is the empty table of the start of the
    process or the table left by a call of [process] on a reachable one. *)
Inductive reachable : IndexTable -> Prop :=
  | reachable_start : reachable ∅
  | reachable_process img now prs tbl :
      reachable tbl -> reachable (process img now prs tbl).2.

(** [later tbl tbl'] when [tbl'] is the table after some further calls of
    [process] that start with the table [tbl]. *)
Inductive later (tbl : IndexTable) : IndexTable -> Prop :=
  | later_now : later tbl tbl
  | later_call img now prs tbl' :
      later tbl tbl' -> later tbl (process img now prs tbl').2.

(** Every object id of [pose_results] has an entry in the table of [st]. *)
Definition covered (st : LoopState) (pose_results : list PoseResult) : Prop :=
  forall pr, pr ∈ pose_results -> is_Some (ls_table st !! object_id pr).

(** The indices stored in a table are below its size. *)
Definition indices_below_size (tbl : IndexTable) : Prop :=
  forall oid i, tbl !! oid = Some i -> 0 <= i < table_size tbl.


(** ** Values used to state and to illustrate the properties *)

(** The rational value of a finite floating-point number. *)
Definition SF2Q (x : spec_float) : option Q :=
  match x with
  | S754_zero _ => Some 0%Q
  | S754_finite s m e => Some (inject_Z (cond_Zopp s (Zpos m)) * Qpower 2 e)%Q
  | _ => None
  end.

(** [x] is finite and within [tol] of the rational [q]. *)
Definition within (tol : Q) (x : spec_float) (q : Q) : bool :=
  match SF2Q x with
  | Some v => Qle_bool (Qabs (v - q)) tol
  | None => false
  end.

(** The tolerance of a comparison of [float] colour channels. *)
Definition float_tolerance : Q := 1 # 10000000.


(** The value of a member of a JSON object, and the strings of an array
    of strings. *)
Definition member (name : string) (v : or_json.mValue) : option or_json.mValue :=
  match v with
  | or_json.mObject fields =>
      (fix find (fs : list (string * or_json.mValue)) : option or_json.mValue :=
         match fs with
         | [] => None
         | (n, v) :: fs' => if String.eqb n name then Some v else find fs'
         end) fields
  | _ => None
  end.

Definition strings (v : or_json.mValue) : option (list string) :=
  match v with
  | or_json.mArray vs =>
      (fix all (vs : list or_json.mValue) : option (list string) :=
         match vs with
         | [] => Some []
         | or_json.mString s :: vs' =>
             match all vs' with Some l => Some (s :: l) | None => None end
         | _ :: _ => None
         end) vs
  | _ => None
  end.

(** Rotation matrices as [cv::Mat_<float>] accessors. *)
Definition R_of (m : Eigen.Matrix3f) : nat -> nat -> spec_float := Eigen.coeff m.
Definition R_identity : Eigen.Matrix3f := Eigen.mat_of_Z 1 0 0 0 1 0 0 0 1.
Definition R_half_turn_z : Eigen.Matrix3f := Eigen.mat_of_Z (-1) 0 0 0 (-1) 0 0 0 1.

(** A pose result of object [oid], turned half around Z and placed at
    (1, 2, 3), with attributes derived from its id. *)
Definition sample_pose_result (oid : string) : PoseResult :=
  {| object_id := oid;
     R := R_of R_half_turn_z;
     T := fun i => F32.of_Z (Z.of_nat i + 1);
     get_attribute := fun name => String.append oid (String "." name) |}.

Definition sample_image : Image :=
  {| image_header := {| stamp := Duration 7; frame_id := "camera" |} |}.

(** Inputs too long for the 32-bit counters: [two32] is 2^32 as a number
    of items, [long_id n] an object id made of [n] letters. *)
Definition two32 : nat := Z.to_nat (2 ^ 32).

Fixpoint long_id (n : nat) : string :=
  match n with
  | O => EmptyString
  | S n => String "a" (long_id n)
  end.

Definition distinct_pose_results (n : nat) : list PoseResult :=
  map (fun k => sample_pose_result (long_id k)) (seq 0 n).

(** ** Colours over ranges of hues and of table sizes *)

(** The colour that the loop body computes from the size of the table and
    the index of an object. *)
Definition colour_of (count index : Z) : RGB :=
  hsv2rgb (hue_of count index) saturation value.

(** The same floating-point datum (not the comparison [==] of numbers). *)
Definition SF_same (x y : spec_float) : bool :=
  match x, y with
  | S754_zero a, S754_zero b => Bool.eqb a b
  | S754_infinity a, S754_infinity b => Bool.eqb a b
  | S754_nan, S754_nan => true
  | S754_finite a m e, S754_finite b n f => Bool.eqb a b && Pos.eqb m n && Z.eqb e f
  | _, _ => false
  end.

Definition RGB_same (c d : RGB) : bool :=
  SF_same (red c) (red d) && SF_same (green c) (green d) && SF_same (blue c) (blue d).

Fixpoint all_distinct (l : list RGB) : bool :=
  match l with
  | [] => true
  | c :: l' => negb (existsb (RGB_same c) l') && all_distinct l'
  end.

(** The colours of the indices 0 .. count - 1 for a table of size [count]. *)
Definition colours (count : Z) : list RGB :=
  map (colour_of count) (seqZ 0 count).

(** The level [m = v - c] that [hsv2rgb] adds to the three channels, for
    the saturation and value of the cell: the [float] next to 0.3. *)
Definition grey_level : spec_float := F32.sub value (F32.mul value saturation).

Definition grey : RGB :=
  {| red := grey_level; green := grey_level; blue := grey_level |}.

(** One channel is 1, one is [grey_level], and all three lie between. *)
Definition bright (c : RGB) : bool :=
  let channels := [red c; green c; blue c] in
  existsb (SF_same f32_1) channels && existsb (SF_same grey_level) channels
  && forallb (fun x => SFleb grey_level x && SFleb x f32_1) channels.

(** For every table size from 1 to [N]: the colours of the indices are
    pairwise distinct and bright. *)
Definition colours_good_upto (N : Z) : bool :=
  forallb (fun n => let cs := colours n in all_distinct cs && forallb bright cs)
    (seqZ 1 N).

(** The number of objects up to which the colours are checked. *)
Definition checked_objects : Z := 128.

(** [hsv2rgb] at a whole number of degrees, with the saturation and value
    of the cell. *)
Definition colour_at_degrees (h : Z) : RGB := hsv2rgb (F32.of_Z h) saturation value.

(** A colour of the first sector with a green channel pushed below the
    grey level. *)
Definition red_with_low_green (c : RGB) : bool :=
  SF_same (red c) f32_1 && SF_same (blue c) grey_level && SFleb (green c) grey_level.

(** The indices of a table are the numbers 0 .. size - 1, each used by
    exactly one object id. *)
Definition sequentially_indexed (tbl : IndexTable) : Prop :=
  indices_below_size tbl
  /\ (forall oid1 oid2 i, tbl !! oid1 = Some i -> tbl !! oid2 = Some i -> oid1 = oid2)
  /\ (forall i, 0 <= i < table_size tbl -> exists oid, tbl !! oid = Some i).

(** The object ids of a list of pose results, as a set. *)
Definition object_ids (pose_results : list PoseResult) : gset string :=
  list_to_set (map object_id pose_results).

(** ** The conversion in exact arithmetic, and unit quaternions *)





(** The three colour channels of a marker. *)
Definition marker_rgb (m : Marker) : RGB :=
  {| red := color_r (color m); green := color_g (color m);
     blue := color_b (color m) |}.








(** * Properties *)

(** ** Integer conversions *)

Lemma to_unsigned_int_range n : 0 <= to_unsigned_int n < 2 ^ 32.
Proof. unfold to_unsigned_int. apply Z.mod_pos_bound. lia. Qed.

Lemma to_unsigned_int_small n : 0 <= n < 2 ^ 32 -> to_unsigned_int n = n.
Proof. intros H. unfold to_unsigned_int. apply Z.mod_small. exact H. Qed.

Lemma to_unsigned_int_succ m k :
  to_unsigned_int (to_unsigned_int (m + 1) + k) = to_unsigned_int (m + (1 + k)).
Proof.
  unfold to_unsigned_int. rewrite Zplus_mod_idemp_l. f_equal. lia.
Qed.

Lemma to_int32_unsigned n : to_int32 (to_unsigned_int n) = to_int32 n.
Proof. unfold to_int32, to_unsigned_int. rewrite Zmod_mod. reflexivity. Qed.

Lemma to_int32_small n : 0 <= n < 2 ^ 31 -> to_int32 n = n.
Proof.
  intros H. unfold to_int32. rewrite Z.mod_small by lia.
  destruct (Z.ltb_spec n (2 ^ 31)); lia.
Qed.

(** ** The index table *)

Section Table.
Implicit Types (tbl : gmap string Z) (pr : PoseResult) (prs : list PoseResult).

Lemma index_object_new tbl pr :
  tbl !! object_id pr = None ->
  index_object tbl pr = <[object_id pr := to_unsigned_int (table_size tbl)]> tbl.
Proof. intros H. unfold index_object. rewrite H. reflexivity. Qed.

Lemma index_object_old tbl pr i :
  tbl !! object_id pr = Some i -> index_object tbl pr = tbl.
Proof. intros H. unfold index_object. rewrite H. reflexivity. Qed.

Lemma index_object_subseteq tbl pr : tbl ⊆ index_object tbl pr.
Proof.
  unfold index_object. destruct (tbl !! object_id pr) eqn:E; [done|].
  by apply insert_subseteq.
Qed.

Lemma index_object_lookup tbl pr : is_Some (index_object tbl pr !! object_id pr).
Proof.
  unfold index_object. destruct (tbl !! object_id pr) eqn:E.
  - rewrite E. eauto.
  - rewrite lookup_insert_eq. eauto.
Qed.

Lemma index_objects_subseteq prs : forall tbl, tbl ⊆ index_objects tbl prs.
Proof.
  induction prs as [|pr prs IH]; intros tbl; simpl; [done|].
  etrans; [apply (index_object_subseteq tbl pr)|apply IH].
Qed.

Lemma index_objects_lookup prs : forall tbl pr,
  pr ∈ prs -> is_Some (index_objects tbl prs !! object_id pr).
Proof.
  induction prs as [|p prs IH]; intros tbl pr Hin.
  - by apply not_elem_of_nil in Hin.
  - apply elem_of_cons in Hin as [->|Hin]; simpl.
    + destruct (index_object_lookup tbl p) as [i Hi].
      exists i. eapply lookup_weaken; [exact Hi|apply index_objects_subseteq].
    + by apply IH.
Qed.

Lemma index_object_size tbl pr :
  (size tbl <= size (index_object tbl pr))%nat.
Proof. apply map_subseteq_size, index_object_subseteq. Qed.

Lemma index_object_below tbl pr :
  indices_below_size tbl -> indices_below_size (index_object tbl pr).
Proof.
  intros Hinv oid i. unfold index_object, table_size.
  destruct (tbl !! object_id pr) eqn:E; [apply Hinv|].
  rewrite map_size_insert_None by done.
  destruct (decide (object_id pr = oid)) as [->|Hne].
  - rewrite lookup_insert_eq. intros [= <-].
    pose proof (Z.mod_pos_bound (Z.of_nat (size tbl)) (2 ^ 32)).
    pose proof (Z.mod_le (Z.of_nat (size tbl)) (2 ^ 32)).
    unfold to_unsigned_int, table_size. lia.
  - rewrite lookup_insert_ne by done. intros Hi.
    apply Hinv in Hi. unfold table_size in Hi. lia.
Qed.

Lemma index_objects_below prs : forall tbl,
  indices_below_size tbl -> indices_below_size (index_objects tbl prs).
Proof.
  induction prs as [|p prs IH]; intros tbl H; simpl; [done|].
  apply IH, index_object_below, H.
Qed.

Lemma subscript_found tbl oid i :
  tbl !! oid = Some i -> subscript tbl oid = (i, tbl).
Proof. intros H. unfold subscript. rewrite H. reflexivity. Qed.
End Table.

(** ** The second loop *)

Section Loop.
Variable hdr : Header.
Implicit Types (st : LoopState) (pr : PoseResult) (prs : list PoseResult).

Lemma assemble_marker_id st pr :
  marker_id (assemble hdr st pr) = to_unsigned_int (marker_id st + 1).
Proof. unfold assemble. destruct (subscript _ _). reflexivity. Qed.

Lemma assemble_poses st pr :
  ls_poses (assemble hdr st pr)
  = <[Z.to_nat (marker_id st) := msg_pose pr]> (ls_poses st).
Proof. unfold assemble. destruct (subscript _ _). reflexivity. Qed.

Lemma assemble_table st pr :
  ls_table (assemble hdr st pr) = (subscript (ls_table st) (object_id pr)).2.
Proof. unfold assemble. destruct (subscript _ _). reflexivity. Qed.

Lemma assemble_markers st pr :
  ls_markers (assemble hdr st pr)
  = ls_markers st
    ++ item_markers hdr (table_size (ls_table st))
         (subscript (ls_table st) (object_id pr)).1 (marker_id st) pr.
Proof. unfold assemble. destruct (subscript _ _). reflexivity. Qed.

Lemma assemble_table_found st pr i :
  ls_table st !! object_id pr = Some i -> ls_table (assemble hdr st pr) = ls_table st.
Proof. intros H. rewrite assemble_table, (subscript_found _ _ _ H). reflexivity. Qed.

Lemma covered_cons st pr prs :
  covered st (pr :: prs) ->
  is_Some (ls_table st !! object_id pr) /\ covered (assemble hdr st pr) prs.
Proof.
  intros H. assert (Hpr : is_Some (ls_table st !! object_id pr)).
  { apply H. left. }
  split; [exact Hpr|]. destruct Hpr as [i Hi].
  intros p Hp. rewrite (assemble_table_found _ _ _ Hi). apply H. by right.
Qed.

Lemma assemble_all_table prs : forall st,
  covered st prs -> ls_table (assemble_all hdr st prs) = ls_table st.
Proof.
  induction prs as [|pr prs IH]; intros st Hc; simpl; [reflexivity|].
  apply covered_cons in Hc as [[i Hi] Hc].
  rewrite (IH _ Hc). exact (assemble_table_found _ _ _ Hi).
Qed.

Lemma assemble_all_snoc st prs pr :
  assemble_all hdr st (prs ++ [pr]) = assemble hdr (assemble_all hdr st prs) pr.
Proof. unfold assemble_all. rewrite fold_left_app. reflexivity. Qed.


Lemma assemble_all_markers_app prs : forall st,
  exists l, ls_markers (assemble_all hdr st prs) = ls_markers st ++ l
            /\ length l = (2 * length prs)%nat.
Proof.
  induction prs as [|pr prs IH]; intros st; simpl.
  - exists []. by rewrite app_nil_r.
  - destruct (IH (assemble hdr st pr)) as (l & -> & Hl).
    rewrite assemble_markers. eexists. rewrite <- app_assoc. split; [reflexivity|].
    rewrite length_app, Hl. simpl. lia.
Qed.

(** The markers of the item at position [k] sit at the positions [2k] and
    [2k+1] behind the markers present before the loop. *)
Lemma assemble_all_markers_lookup prs : forall st k pr,
  covered st prs -> 0 <= marker_id st < 2 ^ 32 -> prs !! k = Some pr ->
  forall j, (j < 2)%nat ->
  ls_markers (assemble_all hdr st prs) !! (length (ls_markers st) + 2 * k + j)%nat
  = item_markers hdr (table_size (ls_table st))
      (default 0 (ls_table st !! object_id pr))
      (to_unsigned_int (marker_id st + Z.of_nat k)) pr !! j.
Proof.
  induction prs as [|p prs IH]; intros st k pr Hc Hid Hk j Hj; [done|].
  apply covered_cons in Hc as [[i Hi] Hc].
  change (assemble_all hdr st (p :: prs))
    with (assemble_all hdr (assemble hdr st p) prs).
  destruct k as [|k].
  - injection Hk as ->.
    destruct (assemble_all_markers_app prs (assemble hdr st pr)) as (l & -> & _).
    rewrite assemble_markers, (subscript_found _ _ _ Hi), Hi.
    rewrite lookup_app_l by (rewrite length_app; simpl; lia).
    rewrite lookup_app_r by lia.
    replace (length (ls_markers st) + 2 * 0 + j - length (ls_markers st))%nat
      with j by lia.
    rewrite Z.add_0_r, (to_unsigned_int_small _ Hid). reflexivity.
  - assert (Hid' : 0 <= marker_id (assemble hdr st p) < 2 ^ 32).
    { rewrite assemble_marker_id. apply to_unsigned_int_range. }
    specialize (IH (assemble hdr st p) k pr Hc Hid' Hk j Hj).
    rewrite assemble_markers, length_app in IH.
    rewrite (assemble_table_found _ _ _ Hi), assemble_marker_id in IH.
    replace (length (ls_markers st) + 2 * S k + j)%nat
      with (length (ls_markers st)
            + length (item_markers hdr (table_size (ls_table st))
                        (subscript (ls_table st) (object_id p)).1 (marker_id st) p)
            + 2 * k + j)%nat by (simpl; lia).
    rewrite IH, to_unsigned_int_succ.
    do 3 f_equal. lia.
Qed.

(** While the counter does not wrap, the loop fills the pose vector from
    the position of the counter on, one pose per pose result. *)
Lemma assemble_all_poses prs : forall st front back,
  ls_poses st = front ++ back ->
  Z.of_nat (length front) = marker_id st ->
  length back = length prs ->
  marker_id st + Z.of_nat (length prs) <= 2 ^ 32 ->
  ls_poses (assemble_all hdr st prs) = front ++ map msg_pose prs.
Proof.
  induction prs as [|p prs IH]; intros st front back Hst Hfront Hback Hle.
  - destruct back; [|done]. simpl. by rewrite Hst.
  - destruct back as [|b back]; [done|].
    change (assemble_all hdr st (p :: prs))
      with (assemble_all hdr (assemble hdr st p) prs).
    simpl in Hback, Hle.
    destruct prs as [|p' prs].
    + destruct back; [|done]. simpl.
      rewrite assemble_poses, Hst, <- Hfront, Nat2Z.id.
      rewrite insert_app_r_alt by lia. by rewrite Nat.sub_diag.
    + rewrite (IH (assemble hdr st p) (front ++ [msg_pose p]) back).
      * by rewrite <- app_assoc.
      * rewrite assemble_poses, Hst, <- Hfront, Nat2Z.id.
        rewrite insert_app_r_alt by lia. rewrite Nat.sub_diag. simpl.
        by rewrite <- app_assoc.
      * rewrite assemble_marker_id, length_app. simpl in *.
        rewrite to_unsigned_int_small; lia.
      * simpl in *. lia.
      * rewrite assemble_marker_id. simpl in *.
        rewrite to_unsigned_int_small; lia.
Qed.

End Loop.

(** ** The call as a whole *)

Section Process.
Variables (img : option Image) (now : Time).
Implicit Types (tbl : gmap string Z) (pr : PoseResult) (prs : list PoseResult).

Lemma start_covered tbl prs :
  covered (start_state (index_objects tbl prs) prs) prs.
Proof. intros pr Hpr. simpl. by apply index_objects_lookup. Qed.

Lemma process_table tbl prs :
  (process img now prs tbl).2 = index_objects tbl prs.
Proof.
  unfold process. simpl.
  rewrite assemble_all_table by apply start_covered. reflexivity.
Qed.

Lemma process_markers_length tbl prs :
  length (markers (marker_message (process img now prs tbl).1))
  = (2 * length prs)%nat.
Proof.
  unfold process. simpl.
  destruct (assemble_all_markers_app (make_header img now) prs
              (start_state (index_objects tbl prs) prs)) as (l & -> & Hl).
  exact Hl.
Qed.

(** The two markers of the item at position [k], as the loop body builds
    them from the table left by the first loop. *)
Lemma process_markers_lookup tbl prs k pr j :
  prs !! k = Some pr -> (j < 2)%nat ->
  markers (marker_message (process img now prs tbl).1) !! (2 * k + j)%nat
  = item_markers (make_header img now) (table_size (index_objects tbl prs))
      (default 0 (index_objects tbl prs !! object_id pr))
      (to_unsigned_int (Z.of_nat k)) pr !! j.
Proof.
  intros Hk Hj. unfold process. simpl markers.
  pose proof (assemble_all_markers_lookup (make_header img now) prs
                (start_state (index_objects tbl prs) prs) k pr
                (start_covered tbl prs)) as H.
  simpl in H. apply H; [lia|exact Hk|exact Hj].
Qed.


Lemma process_poses tbl prs :
  Z.of_nat (length prs) <= 2 ^ 32 ->
  poses (pose_message (process img now prs tbl).1) = map msg_pose prs.
Proof.
  intros Hle. unfold process. simpl.
  apply (assemble_all_poses _ prs _ [] (replicate (length prs) Pose0)).
  - reflexivity.
  - reflexivity.
  - apply length_replicate.
  - simpl. lia.
Qed.
End Process.

Lemma reachable_below tbl : reachable tbl -> indices_below_size tbl.
Proof.
  induction 1 as [|img now prs tbl _ IH].
  - intros oid i H. by rewrite lookup_empty in H.
  - rewrite process_table. by apply index_objects_below.
Qed.

(** * The claims *)

(** ** C1: the layout of the marker array *)

(** C1, the claim as stated fails: for one pose result the marker array
    holds the mesh marker and the text marker with the same id 0, so the
    ids are neither strictly increasing nor unique within the array. *)
Lemma marker_ids_shared_by_pair :
  let out := (process None (Duration 0) [sample_pose_result "a"] ∅).1 in
  map id (markers (marker_message out)) = [0; 0]
  /\ ~ NoDup (map id (markers (marker_message out))).
Proof.
  assert (H : map id (markers (marker_message
                (process None (Duration 0) [sample_pose_result "a"] ∅).1)) = [0; 0])
    by (vm_compute; reflexivity).
  cbv zeta. split; [exact H|].
  rewrite H. intros Hnd. apply NoDup_cons in Hnd as [Hnotin _].
  apply Hnotin. left.
Qed.

(** C1 (amended): for every input the marker array has exactly
    [2 * length] markers; the item at position [k] of the input gives the
    markers at the positions [2k] (its mesh marker) and [2k+1] (its text
    marker), in input order; both carry the same id, the position [k] as an
    [int32], which is [k] itself below 2^31: the ids start at 0 and grow by
    one from each pair to the next. *)
Theorem marker_array_layout img now prs tbl k pr :
  prs !! k = Some pr ->
  let ms := markers (marker_message (process img now prs tbl).1) in
  length ms = (2 * length prs)%nat
  /\ exists mesh label,
       ms !! (2 * k)%nat = Some mesh /\ ms !! (2 * k + 1)%nat = Some label
       /\ type mesh = MESH_RESOURCE
       /\ mesh_resource mesh = get_attribute pr "mesh_uri"
       /\ type label = TEXT_VIEW_FACING
       /\ text label = get_attribute pr "name"
       /\ id mesh = to_int32 (Z.of_nat k) /\ id label = to_int32 (Z.of_nat k)
       /\ (Z.of_nat k < 2 ^ 31 -> id mesh = Z.of_nat k /\ id label = Z.of_nat k).
Proof.
  intros Hk ms. split; [apply process_markers_length|].
  pose proof (process_markers_lookup img now tbl prs k pr 0 Hk ltac:(lia)) as H0.
  pose proof (process_markers_lookup img now tbl prs k pr 1 Hk ltac:(lia)) as H1.
  rewrite Nat.add_0_r in H0. unfold item_markers in H0, H1. cbv zeta in H0, H1.
  change ([?a; ?b] !! 0%nat) with (Some a) in H0.
  change ([?a; ?b] !! 1%nat) with (Some b) in H1.
  eexists _, _. split; [exact H0|]. split; [exact H1|].
  cbn [id type text mesh_resource mesh_marker text_marker].
  rewrite to_int32_unsigned.
  repeat split; try reflexivity; apply to_int32_small; lia.
Qed.

Lemma marker_array_layout_witness :
  let prs := [sample_pose_result "a"; sample_pose_result "b"] in
  prs !! 1%nat = Some (sample_pose_result "b")
  /\ length (markers (marker_message (process None (Duration 0) prs ∅).1)) = 4%nat.
Proof.
  split; [reflexivity|].
  exact (proj1 (marker_array_layout None (Duration 0)
                  [sample_pose_result "a"; sample_pose_result "b"] ∅ 1
                  (sample_pose_result "b") eq_refl)).
Defined.

(** ** C8: the header of the pose array *)

(** C8: the stamp of the pose-array header is the clock reading of the
    call; its frame id is the frame id of the image message when there is
    one, and stays the empty string of a fresh header when there is none.
    [process] is a total function: it returns its outputs in both cases. *)
Theorem pose_array_header now prs tbl :
  (forall img,
     let h := pa_header (pose_message (process (Some img) now prs tbl).1) in
     stamp h = now /\ frame_id h = frame_id (image_header img))
  /\ (let h := pa_header (pose_message (process None now prs tbl).1) in
      stamp h = now /\ frame_id h = EmptyString /\ frame_id h = frame_id Header0).
Proof. split; [intros img|]; simpl; auto. Qed.

(** With an image message the frame id of the image is copied, and the
    markers carry the same header. *)
Example pose_array_header_example :
  let out := (process (Some sample_image) (Duration 9) [sample_pose_result "a"] ∅).1 in
  pa_header (pose_message out) = {| stamp := Duration 9; frame_id := "camera" |}
  /\ map header (markers (marker_message out))
     = [pa_header (pose_message out); pa_header (pose_message out)].
Proof. split; vm_compute; reflexivity. Qed.

(** ** C10: the division and the lookup in the loop body *)



(** ** C7: the quaternion of two known rotations *)

(** C7: the conversion maps the identity matrix to the quaternion
    (x, y, z, w) = (0, 0, 0, 1) and the matrix of the half turn about Z to
    (0, 0, 1, 0), both with the positive sign; a pose result with one of
    these rotations gets that orientation in its pose. *)
Theorem quaternion_of_known_rotations :
  Eigen.quaternion_of_matrix R_identity
  = {| Eigen.x := f32_0; Eigen.y := f32_0; Eigen.z := f32_0; Eigen.w := f32_1 |}
  /\ Eigen.quaternion_of_matrix R_half_turn_z
     = {| Eigen.x := f32_0; Eigen.y := f32_0; Eigen.z := f32_1; Eigen.w := f32_0 |}
  /\ (forall oid t attrs,
        orientation (msg_pose {| object_id := oid; R := R_of R_identity; T := t;
                                 get_attribute := attrs |})
        = {| qx := f64_0; qy := f64_0; qz := f64_0; qw := F64.of_Z 1 |})
  /\ (forall oid t attrs,
        orientation (msg_pose {| object_id := oid; R := R_of R_half_turn_z; T := t;
                                 get_attribute := attrs |})
        = {| qx := f64_0; qy := f64_0; qz := F64.of_Z 1; qw := f64_0 |}).
Proof.
  split; [vm_compute; reflexivity|].
  split; [vm_compute; reflexivity|].
  split; intros oid t attrs; vm_compute; reflexivity.
Qed.

(** ** C9: the fields of the two markers of an item *)

(** C9: the mesh marker of the item at position [k] has the pose computed
    for that item, scale 1 on the three axes, alpha 0.75 and the red, green
    and blue of the colour computed for its object, lifetime 30 seconds,
    action ADD and the attribute [mesh_uri] as mesh resource; the text
    marker that follows has the same pose, [scale.z] 0.03 (the [double]
    next to it), the colour (1, 1, 1, 1), lifetime 10 seconds and the
    attribute [name] as text. *)
Theorem marker_fields img now prs tbl k pr :
  prs !! k = Some pr ->
  let out := process img now prs tbl in
  exists index mesh label,
    out.2 !! object_id pr = Some index
    /\ markers (marker_message out.1) !! (2 * k)%nat = Some mesh
    /\ markers (marker_message out.1) !! (2 * k + 1)%nat = Some label
    /\ (type mesh = MESH_RESOURCE
        /\ action mesh = ADD
        /\ pose mesh = msg_pose pr
        /\ scale mesh = {| vx := F64.of_Z 1; vy := F64.of_Z 1; vz := F64.of_Z 1 |}
        /\ within 0 (color_a (color mesh)) (75 # 100) = true
        /\ (let rgb := hsv2rgb (hue_of (table_size out.2) index) saturation value in
            color_r (color mesh) = red rgb /\ color_g (color mesh) = green rgb
            /\ color_b (color mesh) = blue rgb)
        /\ lifetime mesh = Duration 30
        /\ mesh_resource mesh = get_attribute pr "mesh_uri")
    /\ (type label = TEXT_VIEW_FACING
        /\ action label = ADD
        /\ pose label = msg_pose pr
        /\ vz (scale label) = double_lit 3 100
        /\ within (1 # 100000000000000000) (vz (scale label)) (3 # 100) = true
        /\ color label = {| color_r := F32.of_Z 1; color_g := F32.of_Z 1;
                            color_b := F32.of_Z 1; color_a := F32.of_Z 1 |}
        /\ lifetime label = Duration 10
        /\ text label = get_attribute pr "name").
Proof.
  intros Hk out. unfold out. rewrite !process_table.
  destruct (index_objects_lookup prs tbl pr) as [i Hi].
  { eapply list_elem_of_lookup_2; eauto. }
  pose proof (process_markers_lookup img now tbl prs k pr 0 Hk ltac:(lia)) as H0.
  pose proof (process_markers_lookup img now tbl prs k pr 1 Hk ltac:(lia)) as H1.
  rewrite Nat.add_0_r in H0. rewrite Hi in H0, H1.
  unfold item_markers in H0, H1. cbv zeta in H0, H1.
  change ([?a; ?b] !! 0%nat) with (Some a) in H0.
  change ([?a; ?b] !! 1%nat) with (Some b) in H1.
  eexists i, _, _. split; [exact Hi|]. split; [exact H0|]. split; [exact H1|].
  split; repeat split; reflexivity.
Qed.

Lemma marker_fields_witness :
  let prs := [sample_pose_result "a"; sample_pose_result "b"] in
  prs !! 1%nat = Some (sample_pose_result "b")
  /\ exists index mesh label,
       (process None (Duration 0) prs ∅).2 !! "b" = Some index
       /\ markers (marker_message (process None (Duration 0) prs ∅).1) !! 2%nat
          = Some mesh
       /\ markers (marker_message (process None (Duration 0) prs ∅).1) !! 3%nat
          = Some label
       /\ lifetime mesh = Duration 30 /\ lifetime label = Duration 10.
Proof.
  split; [reflexivity|].
  destruct (marker_fields None (Duration 0)
              [sample_pose_result "a"; sample_pose_result "b"] ∅ 1
              (sample_pose_result "b") eq_refl)
    as (index & mesh & label & Hi & Hm & Hl & Hmesh & Hlabel).
  exists index, mesh, label.
  split; [exact Hi|]. split; [exact Hm|]. split; [exact Hl|].
  split; [apply Hmesh|apply Hlabel].
Defined.

(** ** C5: the pose array *)


Lemma two32_value : Z.of_nat two32 = 2 ^ 32.
Proof. unfold two32. apply Z2Nat.id. lia. Qed.







(** ** C6: the empty input *)

(** C6: for an empty input the call returns its three outputs: no pose, no
    marker, and the text [{"object_ids": []}], which reads as the JSON
    object with the empty array under [object_ids]. *)
Theorem empty_input img now tbl :
  let out := (process img now [] tbl).1 in
  poses (pose_message out) = []
  /\ markers (marker_message out) = []
  /\ data (object_ids_message out)
     = String "{" (String or_json.dquote
         (String.append "object_ids" (String or_json.dquote ": []}")))
  /\ or_json.parse (data (object_ids_message out))
     = Some (or_json.mObject [("object_ids", or_json.mArray [])])
  /\ (member "object_ids" <$> or_json.parse (data (object_ids_message out)))
     = Some (Some (or_json.mArray [])).
Proof. repeat split; vm_compute; reflexivity. Qed.

(** ** C2: the index table *)

Lemma later_subseteq (tbl tbl' : gmap string Z) : later tbl tbl' -> tbl ⊆ tbl'.
Proof.
  induction 1 as [|img now prs tbl' _ IH]; [done|].
  rewrite process_table. etrans; [exact IH|apply index_objects_subseteq].
Qed.

(** Object ids that are new and pairwise distinct get the indices that
    follow the size of the table, modulo 2^32. *)
Lemma index_objects_fresh (prs : list PoseResult) : forall tbl : gmap string Z,
  NoDup (map object_id prs) ->
  (forall pr, pr ∈ prs -> tbl !! object_id pr = None) ->
  size (index_objects tbl prs) = (size tbl + length prs)%nat
  /\ forall k pr, prs !! k = Some pr ->
       index_objects tbl prs !! object_id pr
       = Some (to_unsigned_int (table_size tbl + Z.of_nat k)).
Proof.
  induction prs as [|p prs IH]; intros tbl Hnd Hfresh.
  - split; [simpl; lia|]. intros k pr Hk. done.
  - simpl in Hnd. apply NoDup_cons in Hnd as [Hp Hnd].
    assert (Hnone : tbl !! object_id p = None) by (apply Hfresh; left).
    change (index_objects tbl (p :: prs))
      with (index_objects (index_object tbl p) prs).
    rewrite (index_object_new _ _ Hnone).
    set (tbl1 := <[object_id p := to_unsigned_int (table_size tbl)]> tbl).
    assert (Hsize : size tbl1 = S (size tbl)) by by apply map_size_insert_None.
    destruct (IH tbl1 Hnd) as [IHsize IHk].
    { intros pr Hpr. unfold tbl1. rewrite lookup_insert_ne.
      - apply Hfresh. by right.
      - intros E. apply Hp. rewrite E. apply list_elem_of_In, in_map.
        by apply list_elem_of_In. }
    split; [rewrite IHsize, Hsize; simpl; lia|].
    intros [|k] pr Hk; simpl in Hk.
    + injection Hk as ->. rewrite Z.add_0_r.
      eapply lookup_weaken; [|apply index_objects_subseteq].
      unfold tbl1. apply lookup_insert_eq.
    + rewrite (IHk k pr Hk). do 2 f_equal. unfold table_size. lia.
Qed.

Lemma long_id_length n : String.length (long_id n) = n.
Proof. induction n as [|n IH]; simpl; congruence. Qed.

Lemma long_id_inj n m : long_id n = long_id m -> n = m.
Proof. intros E. rewrite <- (long_id_length n), <- (long_id_length m), E. done. Qed.

Lemma distinct_pose_results_ids n :
  map object_id (distinct_pose_results n) = map long_id (seq 0 n).
Proof. unfold distinct_pose_results. rewrite map_map. reflexivity. Qed.

Lemma distinct_pose_results_lookup n k :
  (k < n)%nat ->
  distinct_pose_results n !! k = Some (sample_pose_result (long_id k)).
Proof.
  intros Hk. unfold distinct_pose_results.
  change (map ?f ?l) with (f <$> l).
  rewrite list_lookup_fmap, lookup_seq_lt by exact Hk. reflexivity.
Qed.

Lemma distinct_pose_results_S n :
  distinct_pose_results (S n)
  = distinct_pose_results n ++ [sample_pose_result (long_id n)].
Proof. unfold distinct_pose_results. rewrite seq_S, map_app. reflexivity. Qed.

Lemma index_objects_distinct n :
  size (index_objects ∅ (distinct_pose_results n)) = n
  /\ forall k, (k < n)%nat ->
       index_objects ∅ (distinct_pose_results n) !! long_id k
       = Some (to_unsigned_int (Z.of_nat k)).
Proof.
  destruct (index_objects_fresh (distinct_pose_results n) ∅) as [Hsize Hk].
  - rewrite distinct_pose_results_ids. apply NoDup_fmap_2.
    + intros a b. apply long_id_inj.
    + apply NoDup_seq.
  - intros pr _. apply lookup_empty.
  - split.
    + rewrite Hsize, map_size_empty. unfold distinct_pose_results.
      rewrite length_map, length_seq. reflexivity.
    + intros k Hlt.
      change (long_id k) with (object_id (sample_pose_result (long_id k))) at 1.
      rewrite (Hk k _ (distinct_pose_results_lookup n k Hlt)).
      unfold table_size. rewrite map_size_empty. reflexivity.
Qed.

(** The table after [n] distinct object ids, when [n] is 2^32. *)
Lemma wrap_at_size n :
  Z.of_nat n = 2 ^ 32 ->
  let front := distinct_pose_results n in
  let pr := sample_pose_result (long_id n) in
  let seen := index_objects ∅ front in
  let tbl' := (process None (Duration 0) (front ++ [pr]) ∅).2 in
  reachable tbl'
  /\ seen !! object_id pr = None
  /\ table_size seen = 2 ^ 32
  /\ tbl' !! object_id pr = Some 0
  /\ tbl' !! long_id 0 = Some 0
  /\ object_id pr <> long_id 0.
Proof.
  intros Hn. cbv zeta.
  destruct (index_objects_distinct n) as [Hsize _].
  destruct (index_objects_distinct (S n)) as [_ Hk].
  assert (Hnd : NoDup (map object_id (distinct_pose_results (S n)))).
  { rewrite distinct_pose_results_ids.
    apply NoDup_fmap_2; [intros a b; apply long_id_inj|apply NoDup_seq]. }
  rewrite process_table, <- distinct_pose_results_S.
  split; [|split; [|split; [|split; [|split]]]].
  - rewrite <- process_table with (img := None) (now := Duration 0).
    apply reachable_process, reachable_start.
  - destruct (index_objects ∅ (distinct_pose_results n)
                !! object_id (sample_pose_result (long_id n))) as [i|] eqn:E;
      [|reflexivity].
    exfalso.
    destruct (index_objects_fresh (distinct_pose_results (S n)) ∅ Hnd) as [Hs _].
    { intros p _. apply lookup_empty. }
    rewrite distinct_pose_results_S in Hs at 1.
    unfold index_objects in Hs. rewrite fold_left_app in Hs.
    fold (index_objects ∅ (distinct_pose_results n)) in Hs.
    change (fold_left index_object [?p] ?t) with (index_object t p) in Hs.
    rewrite (index_object_old _ _ _ E), Hsize, map_size_empty in Hs.
    unfold distinct_pose_results in Hs.
    rewrite length_map, length_seq in Hs. lia.
  - unfold table_size. rewrite Hsize. exact Hn.
  - change (object_id (sample_pose_result (long_id n))) with (long_id n).
    rewrite Hk by lia. rewrite Hn. reflexivity.
  - change (long_id 0) with (long_id 0%nat).
    rewrite (Hk 0%nat) by lia. reflexivity.
  - intros E. apply long_id_inj in E. lia.
Qed.

(** C2, the claim as stated fails once the table holds 2^32 object ids:
    the index is an [unsigned int], so the object id that comes when the
    table has size 2^32 is stored with the index 0, which is not the size of
    the table at that time and is the index of the first object id. *)
Lemma index_wraps_at_two32 :
  let front := distinct_pose_results two32 in
  let pr := sample_pose_result (long_id two32) in
  let seen := index_objects ∅ front in
  let tbl' := (process None (Duration 0) (front ++ [pr]) ∅).2 in
  reachable tbl'
  /\ seen !! object_id pr = None
  /\ table_size seen = 2 ^ 32
  /\ tbl' !! object_id pr = Some 0
  /\ tbl' !! long_id 0 = Some 0
  /\ object_id pr <> long_id 0.
Proof. exact (wrap_at_size two32 two32_value). Qed.

(** C2 (amended): let a call on a reachable table come to a pose result
    [pr] when the table is [seen].  The table passed in is included in
    [seen], and [seen] in the table returned: no entry is removed or
    changed, within the call and over all later calls.  An object id that
    has an entry keeps it.  An object id without entry gets the size of
    [seen] as an [unsigned int], which is that size itself, an index that no
    object id has yet, while the table holds fewer than 2^32 entries. *)
Theorem index_table_assignment img now tbl front pr back :
  reachable tbl ->
  let seen := index_objects tbl front in
  let tbl' := (process img now (front ++ pr :: back) tbl).2 in
  (tbl ⊆ seen /\ seen ⊆ tbl' /\ (size tbl <= size tbl')%nat /\ reachable tbl')
  /\ (forall tbl2, later tbl' tbl2 ->
        tbl' ⊆ tbl2
        /\ forall i, tbl' !! object_id pr = Some i -> tbl2 !! object_id pr = Some i)
  /\ (forall i, seen !! object_id pr = Some i -> tbl' !! object_id pr = Some i)
  /\ (seen !! object_id pr = None ->
        tbl' !! object_id pr = Some (to_unsigned_int (table_size seen))
        /\ (table_size seen < 2 ^ 32 ->
              tbl' !! object_id pr = Some (table_size seen)
              /\ forall oid, seen !! oid <> Some (table_size seen))).
Proof.
  intros Hreach seen tbl'.
  assert (Htbl' : tbl' = index_objects (index_object seen pr) back).
  { unfold tbl', seen. rewrite process_table. unfold index_objects.
    rewrite fold_left_app. reflexivity. }
  assert (H1 : tbl ⊆ seen) by apply index_objects_subseteq.
  assert (H2 : seen ⊆ tbl').
  { rewrite Htbl'. etrans; [apply (index_object_subseteq seen pr)|].
    apply index_objects_subseteq. }
  split; [|split; [|split]].
  - split; [exact H1|]. split; [exact H2|]. split.
    + apply map_subseteq_size. by etrans.
    + apply reachable_process, Hreach.
  - intros tbl2 Hl. apply later_subseteq in Hl. split; [exact Hl|].
    intros i Hi. eapply lookup_weaken; eauto.
  - intros i Hi. eapply lookup_weaken; eauto.
  - intros Hnone.
    assert (Hnew : tbl' !! object_id pr = Some (to_unsigned_int (table_size seen))).
    { rewrite Htbl'. eapply lookup_weaken; [|apply index_objects_subseteq].
      rewrite (index_object_new _ _ Hnone). apply lookup_insert_eq. }
    split; [exact Hnew|]. intros Hlt. split.
    + rewrite Hnew, to_unsigned_int_small; [reflexivity|].
      unfold table_size in *. lia.
    + intros oid Hoid.
      apply (index_objects_below front tbl (reachable_below tbl Hreach)) in Hoid.
      fold seen in Hoid. lia.
Qed.

Lemma index_table_assignment_witness :
  let seen := index_objects ∅ [sample_pose_result "a"] in
  let tbl' := (process None (Duration 0)
                 ([sample_pose_result "a"]
                    ++ sample_pose_result "b" :: [sample_pose_result "a"]) ∅).2 in
  reachable ∅ /\ seen ⊆ tbl'.
Proof.
  split; [apply reachable_start|].
  exact (proj1 (proj2 (proj1 (index_table_assignment None (Duration 0) ∅
                                [sample_pose_result "a"] (sample_pose_result "b")
                                [sample_pose_result "a"] reachable_start)))).
Defined.

(** The first object ids of a process get 0, 1, 2 in the order in which
    they are seen, over two calls. *)
Example index_table_two_calls :
  let tbl1 := (process None (Duration 0)
                 [sample_pose_result "b"; sample_pose_result "a";
                  sample_pose_result "b"] ∅).2 in
  let tbl2 := (process None (Duration 1)
                 [sample_pose_result "c"; sample_pose_result "a"] tbl1).2 in
  (tbl1 !! "b", tbl1 !! "a", tbl1 !! "c") = (Some 0, Some 1, None)
  /\ (tbl2 !! "b", tbl2 !! "a", tbl2 !! "c") = (Some 0, Some 1, Some 2).
Proof. split; vm_compute; reflexivity. Qed.

(** ** C3: the colour of a mesh marker *)

Lemma forallb_seqZ (f : Z -> bool) m n h :
  forallb f (seqZ m n) = true -> m <= h < m + n -> f h = true.
Proof.
  intros H Hh. rewrite forallb_forall in H.
  apply H, list_elem_of_In, elem_of_seqZ. exact Hh.
Qed.














(** With three objects seen, the second object of this call has index 2 and
    the hue 240: its mesh marker is blue. *)
Example mesh_marker_colour_example :
  let tbl : gmap string Z := <["x" := 0]> ∅ in
  let out := process None (Duration 0)
               [sample_pose_result "a"; sample_pose_result "b"] tbl in
  marker_rgb <$> markers (marker_message out.1) !! 2%nat
  = Some (hsv2rgb (F32.of_Z 240) saturation value).
Proof. vm_compute. reflexivity. Qed.

(** ** C4: the text of the object ids *)

Section Json.
Import or_json.

Lemma parse_chars_escape s k :
  parse_chars (escape s (String dquote k)) = Some (s, k).
Proof.
  induction s as [|c s IH]; [reflexivity|].
  simpl escape. unfold escape_char.
  destruct (Ascii.eqb c dquote) eqn:E1.
  { apply Ascii.eqb_eq in E1 as ->. simpl. rewrite IH. reflexivity. }
  destruct (Ascii.eqb c backslash) eqn:E2.
  { apply Ascii.eqb_eq in E2 as ->. simpl. rewrite IH. reflexivity. }
  destruct (is_control c) eqn:E3.
  - destruct c as [[] [] [] [] [] [] [] []]; try discriminate E3;
      try discriminate E1; try discriminate E2;
      simpl; rewrite IH; reflexivity.
  - simpl. rewrite E1, E2, E3, IH. reflexivity.
Qed.

Lemma parse_value_string fuel s k :
  parse_value (S fuel) (write_string s k) = Some (mString s, k).
Proof. unfold write_string. simpl. rewrite parse_chars_escape. reflexivity. Qed.

Lemma parse_value_space fuel s :
  parse_value fuel (String " " s) = parse_value fuel s.
Proof. destruct fuel; reflexivity. Qed.

Lemma parse_items_space fuel s :
  parse_items fuel (String " " s) = parse_items fuel s.
Proof. destruct fuel; [reflexivity|]. simpl. rewrite parse_value_space. reflexivity. Qed.

Lemma parse_items_strings ids : forall fuel k,
  ids <> [] -> (length ids < fuel)%nat ->
  parse_items fuel (write_list write (map mString ids) (String "]" k))
  = Some (map mString ids, k).
Proof.
  induction ids as [|a ids IH]; intros fuel k Hne Hlen; [done|].
  destruct fuel as [|[|fuel]]; simpl in Hlen; try lia.
  destruct ids as [|b ids].
  - simpl. rewrite parse_chars_escape. reflexivity.
  - assert (IH' := IH (S fuel) k ltac:(done) ltac:(simpl in *; lia)).
    change (write_list write (map mString (a :: b :: ids)) (String "]" k))
      with (write_string a (String "," (String " "
              (write_list write (map mString (b :: ids)) (String "]" k))))).
    change (parse_items (S (S fuel)) ?s)
      with (match parse_value (S fuel) s with
            | Some (v, rest) =>
                match skip_ws rest with
                | String c s1 =>
                    if Ascii.eqb c "]" then Some ([v], s1)
                    else if Ascii.eqb c "," then
                      match parse_items (S fuel) s1 with
                      | Some (vs, rest') => Some (v :: vs, rest')
                      | None => None
                      end
                    else None
                | EmptyString => None
                end
            | None => None
            end).
    rewrite parse_value_string.
    change (skip_ws (String "," ?s)) with (String "," s).
    change (Ascii.eqb "," "]") with false. change (Ascii.eqb "," ",") with true.
    cbv iota. rewrite parse_items_space, IH'. reflexivity.
Qed.

Lemma escape_length s k : (String.length k <= String.length (escape s k))%nat.
Proof.
  induction s as [|c s IH]; simpl; [lia|].
  unfold escape_char.
  destruct (Ascii.eqb c dquote), (Ascii.eqb c backslash), (is_control c);
    simpl; lia.
Qed.

Lemma write_strings_length ids : forall k,
  (length ids + String.length k
   <= String.length (write_list write (map mString ids) k))%nat.
Proof.
  induction ids as [|a ids IH]; intros k; [simpl; lia|].
  destruct ids as [|b ids].
  - simpl. pose proof (escape_length a (String dquote k)). simpl in *. lia.
  - change (write_list write (map mString (a :: b :: ids)) k)
      with (write_string a (String "," (String " "
              (write_list write (map mString (b :: ids)) k)))).
    unfold write_string.
    pose proof (escape_length a (String dquote (String "," (String " "
                  (write_list write (map mString (b :: ids)) k))))) as H.
    specialize (IH k). simpl String.length in *. simpl length in *. lia.
Qed.

Lemma write_strings_head a ids k :
  exists rest, write_list write (map mString (a :: ids)) k = String dquote rest.
Proof. destruct ids; eexists; reflexivity. Qed.

Lemma parse_value_object fuel s :
  parse_value (S fuel) (String "{" (write_string "object_ids" s))
  = match parse_members fuel (write_string "object_ids" s) with
    | Some (fs, rest) => Some (mObject fs, rest)
    | None => None
    end.
Proof. reflexivity. Qed.

Lemma parse_members_last fuel name s v :
  parse_value fuel s = Some (v, String "}" EmptyString) ->
  parse_members (S fuel) (write_string name (String ":" s))
  = Some ([(name, v)], EmptyString).
Proof.
  intros Hv. unfold write_string. simpl.
  rewrite parse_chars_escape. simpl. rewrite Hv. reflexivity.
Qed.

Lemma parse_value_array fuel arr rest :
  arr = String dquote rest ->
  parse_value (S fuel) (String "[" arr)
  = match parse_items fuel arr with
    | Some (vs, r) => Some (mArray vs, r)
    | None => None
    end.
Proof. intros ->. reflexivity. Qed.

Lemma parse_value_object_ids ids fuel :
  (length ids + 4 <= fuel)%nat ->
  parse_value fuel (write (mObject [("object_ids", mArray (map mString ids))])
                      EmptyString)
  = Some (mObject [("object_ids", mArray (map mString ids))], EmptyString).
Proof.
  intros Hfuel.
  destruct fuel as [|[|[|[|fuel]]]]; try lia.
  destruct ids as [|a ids]; [reflexivity|].
  pose proof (parse_items_strings (a :: ids) (S fuel) (String "}" EmptyString)
                ltac:(done) ltac:(simpl in *; lia)) as Hitems.
  destruct (write_strings_head a ids (String "]" (String "}" EmptyString)))
    as [rest Hrest].
  change (write (mObject [("object_ids", mArray (map mString (a :: ids)))])
            EmptyString)
    with (String "{" (write_string "object_ids" (String ":" (String " "
            (String "[" (write_list write (map mString (a :: ids))
                           (String "]" (String "}" EmptyString)))))))).
  rewrite parse_value_object.
  rewrite (parse_members_last _ _ _ (mArray (map mString (a :: ids))));
    [reflexivity|].
  rewrite parse_value_space, (parse_value_array _ _ _ Hrest), Hitems.
  reflexivity.
Qed.

Lemma parse_object_ids ids :
  parse (write (mObject [("object_ids", mArray (map mString ids))]) EmptyString)
  = Some (mObject [("object_ids", mArray (map mString ids))]).
Proof.
  unfold parse. rewrite parse_value_object_ids; [reflexivity|].
  change (write (mObject [("object_ids", mArray (map mString ids))]) EmptyString)
    with (String "{" (write_string "object_ids" (String ":" (String " "
            (String "[" (write_list write (map mString ids)
                           (String "]" (String "}" EmptyString)))))))).
  pose proof (write_strings_length ids (String "]" (String "}" EmptyString))) as H.
  unfold write_string. simpl String.length in *. lia.
Qed.

Lemma strings_of_ids ids : strings (mArray (map mString ids)) = Some ids.
Proof.
  induction ids as [|a ids IH]; [reflexivity|].
  simpl in *. rewrite IH. reflexivity.
Qed.
End Json.

(** C4: the text of the object-ids output reads as a JSON object whose
    member [object_ids] is the array of the object ids of the pose results,
    as strings, one per pose result and in input order: the same length,
    the same order, repeated ids kept. *)
Theorem object_ids_payload img now prs tbl :
  let text := data (object_ids_message (process img now prs tbl).1) in
  exists v arr,
    or_json.parse text = Some v
    /\ member "object_ids" v = Some arr
    /\ strings arr = Some (map object_id prs)
    /\ v = or_json.mObject
             [("object_ids", or_json.mArray (map or_json.mString (map object_id prs)))].
Proof.
  cbv zeta. unfold process. simpl data. unfold object_ids_value.
  rewrite <- (map_map object_id or_json.mString).
  eexists _, _. split; [apply parse_object_ids|].
  split; [reflexivity|]. split; [apply strings_of_ids|reflexivity].
Qed.

(** Repeated and unusual object ids come back as they went in. *)
Example object_ids_payload_example :
  let prs := [sample_pose_result "b"; sample_pose_result (String or_json.dquote "a");
              sample_pose_result "b"] in
  strings <$> (or_json.parse
                 (data (object_ids_message (process None (Duration 0) prs ∅).1))
               ≫= member "object_ids")
  = Some (Some ["b"; String or_json.dquote "a"; "b"]).
Proof. vm_compute. reflexivity. Qed.

(** * Further properties of the cell *)

(** ** The first loop and the table *)

Lemma index_object_dom (tbl : gmap string Z) pr :
  dom (index_object tbl pr) = dom tbl ∪ {[object_id pr]}.
Proof.
  unfold index_object. destruct (tbl !! object_id pr) eqn:E.
  - symmetry. rewrite (comm_L (∪)).
    apply subseteq_union_1_L, singleton_subseteq_l, elem_of_dom. eauto.
  - rewrite dom_insert_L. apply (comm_L (∪)).
Qed.

Lemma index_objects_dom prs : forall tbl : gmap string Z,
  dom (index_objects tbl prs) = dom tbl ∪ object_ids prs.
Proof.
  unfold object_ids.
  induction prs as [|p prs IH]; intros tbl; simpl.
  - by rewrite (right_id_L ∅ (∪)).
  - rewrite IH, index_object_dom. by rewrite (assoc_L (∪)).
Qed.

Lemma index_objects_size_le prs : forall tbl : gmap string Z,
  (size (index_objects tbl prs) <= size tbl + length prs)%nat.
Proof.
  induction prs as [|p prs IH]; intros tbl; simpl; [lia|].
  etrans; [apply IH|].
  assert (size (index_object tbl p) <= S (size tbl))%nat; [|lia].
  unfold index_object. destruct (tbl !! object_id p) eqn:E; [lia|].
  rewrite map_size_insert_None by done. lia.
Qed.

(** The table returned by a call holds the object ids it held before and
    the object ids of the pose results of the call, and no other; it gains
    at most one entry per pose result. *)
Theorem table_domain img now prs tbl :
  let tbl' := (process img now prs tbl).2 in
  dom tbl' = dom tbl ∪ object_ids prs
  /\ (size tbl' <= size tbl + length prs)%nat.
Proof.
  cbv zeta. rewrite process_table.
  split; [apply index_objects_dom|apply index_objects_size_le].
Qed.

Lemma index_objects_known prs : forall tbl : gmap string Z,
  (forall pr, pr ∈ prs -> is_Some (tbl !! object_id pr)) ->
  index_objects tbl prs = tbl.
Proof.
  induction prs as [|p prs IH]; intros tbl H; simpl; [reflexivity|].
  destruct (H p) as [i Hi]; [left|].
  rewrite (index_object_old _ _ _ Hi). apply IH.
  intros pr Hpr. apply H. by right.
Qed.

(** A call leaves the table as it was exactly when every object id of its
    pose results had an entry already; so a second call on the same pose
    results changes nothing. *)
Theorem table_unchanged_iff_known img now prs tbl :
  ((process img now prs tbl).2 = tbl
   <-> forall pr, pr ∈ prs -> is_Some (tbl !! object_id pr))
  /\ (forall img2 now2,
        (process img2 now2 prs (process img now prs tbl).2).2
        = (process img now prs tbl).2).
Proof.
  split; [split|].
  - intros E pr Hpr. rewrite <- E, process_table. by apply index_objects_lookup.
  - intros H. rewrite process_table. by apply index_objects_known.
  - intros img2 now2. rewrite !process_table. apply index_objects_known.
    intros pr Hpr. by apply index_objects_lookup.
Qed.

Lemma index_object_sequential (tbl : gmap string Z) pr :
  table_size (index_object tbl pr) <= 2 ^ 32 ->
  sequentially_indexed tbl -> sequentially_indexed (index_object tbl pr).
Proof.
  intros Hsize (Hbelow & Hinj & Hsurj).
  split; [by apply index_object_below|].
  revert Hsize. unfold index_object, table_size.
  destruct (tbl !! object_id pr) eqn:E; [intros _; by split|].
  rewrite map_size_insert_None by done. intros Hsize.
  assert (Hidx : to_unsigned_int (table_size tbl) = table_size tbl).
  { apply to_unsigned_int_small. unfold table_size. lia. }
  unfold table_size in Hidx. rewrite Hidx. split.
  - intros oid1 oid2 i.
    destruct (decide (object_id pr = oid1)) as [<-|N1];
      destruct (decide (object_id pr = oid2)) as [<-|N2];
      rewrite ?lookup_insert_eq, ?lookup_insert_ne by done.
    + done.
    + intros [= <-] H2. apply Hbelow in H2. unfold table_size in H2. lia.
    + intros H1 [= <-]. apply Hbelow in H1. unfold table_size in H1. lia.
    + apply Hinj.
  - intros i Hi.
    destruct (decide (i = Z.of_nat (size tbl))) as [->|Hne].
    + exists (object_id pr). apply lookup_insert_eq.
    + destruct (Hsurj i) as [oid Hoid]; [unfold table_size; lia|].
      exists oid. rewrite lookup_insert_ne; [exact Hoid|].
      intros <-. congruence.
Qed.

Lemma index_objects_sequential prs : forall tbl : gmap string Z,
  table_size (index_objects tbl prs) <= 2 ^ 32 ->
  sequentially_indexed tbl -> sequentially_indexed (index_objects tbl prs).
Proof.
  induction prs as [|p prs IH]; intros tbl Hsize H; simpl in *; [exact H|].
  apply IH; [exact Hsize|]. apply index_object_sequential; [|exact H].
  pose proof (map_subseteq_size _ _ (index_objects_subseteq prs (index_object tbl p))).
  unfold table_size in *. fold (index_objects (index_object tbl p) prs) in Hsize. lia.
Qed.

(** In a table reached by calls from the empty table, with at most 2^32
    entries, the indices are the numbers 0 .. size - 1: every index is below
    the size, two object ids never share an index, and every number below
    the size is the index of some object id. *)
Theorem reachable_table_is_sequential tbl :
  reachable tbl -> table_size tbl <= 2 ^ 32 -> sequentially_indexed tbl.
Proof.
  induction 1 as [|img now prs tbl Hreach IH]; intros Hsize.
  - split; [|split].
    + intros oid i H. by rewrite lookup_empty in H.
    + intros oid1 oid2 i H. by rewrite lookup_empty in H.
    + unfold table_size. rewrite map_size_empty. intros i Hi. lia.
  - rewrite process_table in *. apply index_objects_sequential; [exact Hsize|].
    apply IH.
    pose proof (map_subseteq_size _ _ (index_objects_subseteq prs tbl)).
    unfold table_size in *. lia.
Qed.

Lemma reachable_table_is_sequential_witness :
  let tbl := (process None (Duration 0)
                [sample_pose_result "b"; sample_pose_result "a";
                 sample_pose_result "b"] ∅).2 in
  (reachable tbl /\ table_size tbl <= 2 ^ 32) /\ sequentially_indexed tbl.
Proof.
  assert (Hr : reachable (process None (Duration 0)
                            [sample_pose_result "b"; sample_pose_result "a";
                             sample_pose_result "b"] ∅).2)
    by apply reachable_process, reachable_start.
  assert (Hs : table_size (process None (Duration 0)
                             [sample_pose_result "b"; sample_pose_result "a";
                              sample_pose_result "b"] ∅).2 <= 2 ^ 32)
    by (vm_compute; discriminate).
  split; [split; [exact Hr|exact Hs]|].
  exact (reachable_table_is_sequential _ Hr Hs).
Defined.

(** ** The second loop and the markers *)

Lemma assemble_all_markers_Forall (P : Marker -> Prop) hdr prs :
  (forall size index mid pr, Forall P (item_markers hdr size index mid pr)) ->
  forall st, Forall P (ls_markers st) -> Forall P (ls_markers (assemble_all hdr st prs)).
Proof.
  intros Hitem. induction prs as [|p prs IH]; intros st Hst; simpl; [exact Hst|].
  apply IH. rewrite assemble_markers. apply Forall_app. split; [exact Hst|apply Hitem].
Qed.

(** Every marker of the marker array carries the header of the pose array
    (the stamp of the call and the frame id of the image, if any), has the
    action ADD and is a mesh marker or a text marker. *)
Theorem markers_share_header img now prs tbl :
  let out := (process img now prs tbl).1 in
  Forall (fun m => header m = pa_header (pose_message out)
                   /\ action m = ADD
                   /\ (type m = MESH_RESOURCE \/ type m = TEXT_VIEW_FACING))
    (markers (marker_message out)).
Proof.
  cbv zeta. unfold process. simpl.
  apply assemble_all_markers_Forall; [|constructor].
  intros size index mid pr. unfold item_markers. cbv zeta.
  apply Forall_cons. split; [repeat split; left; reflexivity|].
  apply Forall_cons. split; [repeat split; right; reflexivity|].
  apply Forall_nil_2.
Qed.

(** The text marker of an item is the marker variable of its mesh marker
    with five fields assigned anew: it keeps the header, the id, the action,
    the pose, the scale on x and y (1) and also the mesh resource of the
    mesh marker, while the mesh marker has an empty text. *)
Theorem text_marker_keeps_mesh_fields img now prs tbl k pr :
  prs !! k = Some pr ->
  let ms := markers (marker_message (process img now prs tbl).1) in
  exists mesh label,
    ms !! (2 * k)%nat = Some mesh /\ ms !! (2 * k + 1)%nat = Some label
    /\ text mesh = EmptyString
    /\ header label = header mesh /\ id label = id mesh
    /\ action label = action mesh /\ pose label = pose mesh
    /\ mesh_resource label = mesh_resource mesh
    /\ mesh_resource label = get_attribute pr "mesh_uri"
    /\ vx (scale label) = F64.of_Z 1 /\ vy (scale label) = F64.of_Z 1.
Proof.
  intros Hk ms.
  pose proof (process_markers_lookup img now tbl prs k pr 0 Hk ltac:(lia)) as H0.
  pose proof (process_markers_lookup img now tbl prs k pr 1 Hk ltac:(lia)) as H1.
  rewrite Nat.add_0_r in H0. unfold item_markers in H0, H1. cbv zeta in H0, H1.
  change ([?a; ?b] !! 0%nat) with (Some a) in H0.
  change ([?a; ?b] !! 1%nat) with (Some b) in H1.
  eexists _, _. split; [exact H0|]. split; [exact H1|].
  repeat split; reflexivity.
Qed.

Lemma text_marker_keeps_mesh_fields_witness :
  let prs := [sample_pose_result "a"; sample_pose_result "b"] in
  prs !! 1%nat = Some (sample_pose_result "b")
  /\ exists mesh label,
       markers (marker_message (process None (Duration 0) prs ∅).1) !! 2%nat
       = Some mesh
       /\ markers (marker_message (process None (Duration 0) prs ∅).1) !! 3%nat
          = Some label
       /\ mesh_resource label = mesh_resource mesh.
Proof.
  split; [reflexivity|].
  destruct (text_marker_keeps_mesh_fields None (Duration 0)
              [sample_pose_result "a"; sample_pose_result "b"] ∅ 1
              (sample_pose_result "b") eq_refl)
    as (mesh & label & Hm & Hl & _ & _ & _ & _ & _ & Hres & _).
  exists mesh, label. split; [exact Hm|]. split; [exact Hl|exact Hres].
Defined.

(** The pose vector and the counter do not depend on the header nor on
    the table. *)
Lemma assemble_all_poses_indep hdr1 hdr2 prs : forall st1 st2,
  marker_id st1 = marker_id st2 -> ls_poses st1 = ls_poses st2 ->
  ls_poses (assemble_all hdr1 st1 prs) = ls_poses (assemble_all hdr2 st2 prs).
Proof.
  induction prs as [|p prs IH]; intros st1 st2 Hid Hposes; simpl; [exact Hposes|].
  apply IH.
  - rewrite !assemble_marker_id, Hid. reflexivity.
  - rewrite !assemble_poses, Hid, Hposes. reflexivity.
Qed.

(** The pose array entries and the text of the object ids are functions of
    the pose results alone: the image message, the clock and the table of
    earlier calls have no influence on them. *)
Theorem poses_and_ids_depend_on_input_only img1 now1 tbl1 img2 now2 tbl2 prs :
  let out1 := (process img1 now1 prs tbl1).1 in
  let out2 := (process img2 now2 prs tbl2).1 in
  poses (pose_message out1) = poses (pose_message out2)
  /\ object_ids_message out1 = object_ids_message out2.
Proof.
  cbv zeta. unfold process. simpl. split; [|reflexivity].
  apply assemble_all_poses_indep; reflexivity.
Qed.

(** For an input of at most 2^31 pose results the id of a marker is the
    position of its pose in the pose array: the two markers of the item at
    position [k] have the id [k] and the pose stored at [poses[k]]. *)
Theorem marker_id_indexes_pose_array img now prs tbl k pr :
  Z.of_nat (length prs) <= 2 ^ 31 ->
  prs !! k = Some pr ->
  let out := (process img now prs tbl).1 in
  forall j, (j < 2)%nat ->
    exists m, markers (marker_message out) !! (2 * k + j)%nat = Some m
      /\ id m = Z.of_nat k
      /\ poses (pose_message out) !! Z.to_nat (id m) = Some (pose m).
Proof.
  intros Hlen Hk out j Hj.
  pose proof (lookup_lt_Some _ _ _ Hk) as Hlt.
  pose proof (process_markers_lookup img now tbl prs k pr j Hk Hj) as Hm.
  assert (Hposes : poses (pose_message out) !! k = Some (msg_pose pr)).
  { unfold out. rewrite process_poses by lia.
    change (map ?f ?l) with (f <$> l). rewrite list_lookup_fmap, Hk. reflexivity. }
  unfold item_markers in Hm. cbv zeta in Hm.
  assert (Hid : to_int32 (to_unsigned_int (Z.of_nat k)) = Z.of_nat k).
  { rewrite to_int32_unsigned. apply to_int32_small. lia. }
  destruct j as [|[|j]]; [| |lia].
  - change ([?a; ?b] !! 0%nat) with (Some a) in Hm.
    eexists. split; [exact Hm|]. cbn [id pose mesh_marker].
    rewrite Hid, Nat2Z.id. split; [reflexivity|exact Hposes].
  - change ([?a; ?b] !! 1%nat) with (Some b) in Hm.
    eexists. split; [exact Hm|]. cbn [id pose mesh_marker text_marker].
    rewrite Hid, Nat2Z.id. split; [reflexivity|exact Hposes].
Qed.

Lemma marker_id_indexes_pose_array_witness :
  let prs := [sample_pose_result "a"; sample_pose_result "b"] in
  (Z.of_nat (length prs) <= 2 ^ 31 /\ prs !! 1%nat = Some (sample_pose_result "b"))
  /\ exists m,
       markers (marker_message (process None (Duration 0) prs ∅).1) !! 3%nat = Some m
       /\ id m = 1.
Proof.
  assert (H : Z.of_nat (length [sample_pose_result "a"; sample_pose_result "b"])
              <= 2 ^ 31) by (simpl; lia).
  split; [split; [exact H|reflexivity]|].
  destruct (marker_id_indexes_pose_array None (Duration 0)
              [sample_pose_result "a"; sample_pose_result "b"] ∅ 1
              (sample_pose_result "b") H eq_refl 1%nat ltac:(lia))
    as (m & Hm & Hid & _).
  exists m. split; [exact Hm|exact Hid].
Defined.

(** ** The colours *)

Lemma SF_same_eq x y : SF_same x y = true <-> x = y.
Proof.
  split.
  - destruct x as [a|a| |a m e], y as [b|b| |b n f]; simpl; try discriminate.
    + intros H. apply Bool.eqb_prop in H. congruence.
    + intros H. apply Bool.eqb_prop in H. congruence.
    + reflexivity.
    + intros H. apply andb_prop in H as [H He]. apply andb_prop in H as [Ha Hm].
      apply Bool.eqb_prop in Ha. apply Pos.eqb_eq in Hm. apply Z.eqb_eq in He.
      congruence.
  - intros <-. destruct x as [a|a| |a m e]; simpl; auto using Bool.eqb_reflx.
    rewrite Bool.eqb_reflx, Pos.eqb_refl, Z.eqb_refl. reflexivity.
Qed.

Lemma RGB_same_refl c : RGB_same c c = true.
Proof.
  unfold RGB_same. rewrite !(proj2 (SF_same_eq _ _) eq_refl). reflexivity.
Qed.

Lemma all_distinct_NoDup l : all_distinct l = true -> NoDup l.
Proof.
  induction l as [|c l IH]; simpl; intros H; [constructor|].
  apply andb_prop in H as [Hc Hl]. constructor; [|by apply IH].
  intros Hin. apply negb_true_iff in Hc.
  assert (existsb (RGB_same c) l = true); [|congruence].
  apply existsb_exists. exists c. split; [by apply list_elem_of_In|].
  apply RGB_same_refl.
Qed.

(** What [bright] computes. *)
Lemma bright_spec c :
  bright c = true ->
  (red c = f32_1 \/ green c = f32_1 \/ blue c = f32_1)
  /\ (red c = grey_level \/ green c = grey_level \/ blue c = grey_level)
  /\ Forall (fun x => SFleb grey_level x = true /\ SFleb x f32_1 = true)
       [red c; green c; blue c].
Proof.
  unfold bright. cbv zeta. intros H.
  apply andb_prop in H as [H Hall]. apply andb_prop in H as [H1 Hm].
  split; [|split].
  - cbn [existsb] in H1. rewrite orb_false_r in H1.
    apply orb_prop in H1 as [H1|H1]; [|apply orb_prop in H1 as [H1|H1]];
      apply SF_same_eq in H1; auto.
  - cbn [existsb] in Hm. rewrite orb_false_r in Hm.
    apply orb_prop in Hm as [Hm|Hm]; [|apply orb_prop in Hm as [Hm|Hm]];
      apply SF_same_eq in Hm; auto.
  - apply Forall_forall. intros x Hx.
    rewrite forallb_forall in Hall. apply list_elem_of_In, Hall in Hx.
    by apply andb_prop in Hx.
Qed.

Lemma colours_checked : colours_good_upto checked_objects = true.
Proof. vm_compute. reflexivity. Qed.

Lemma colours_good_upto_spec N n :
  colours_good_upto N = true -> 1 <= n < 1 + N ->
  NoDup (colours n) /\ forall c, c ∈ colours n -> bright c = true.
Proof.
  intros H Hn. unfold colours_good_upto in H.
  rewrite forallb_forall in H. specialize (H n). cbv zeta in H.
  destruct (andb_prop _ _ (H ltac:(apply list_elem_of_In, elem_of_seqZ; lia)))
    as [Hd Hb].
  split; [by apply all_distinct_NoDup|].
  intros c Hc. rewrite forallb_forall in Hb. by apply Hb, list_elem_of_In.
Qed.

Lemma colours_good n :
  1 <= n <= checked_objects ->
  NoDup (colours n) /\ forall c, c ∈ colours n -> bright c = true.
Proof.
  intros Hn. apply (colours_good_upto_spec checked_objects n colours_checked).
  lia.
Qed.

Lemma colours_lookup n i :
  0 <= i < n -> colours n !! Z.to_nat i = Some (colour_of n i).
Proof.
  intros Hi. unfold colours. change (map ?f ?l) with (f <$> l).
  rewrite list_lookup_fmap, lookup_seqZ_lt by lia. simpl. f_equal. f_equal. lia.
Qed.

(** The mesh marker of an item and its colour in terms of [colour_of]. *)
Lemma process_mesh_colour img now prs tbl k pr i :
  prs !! k = Some pr ->
  index_objects tbl prs !! object_id pr = Some i ->
  exists mesh,
    markers (marker_message (process img now prs tbl).1) !! (2 * k)%nat = Some mesh
    /\ let c := colour_of (table_size (index_objects tbl prs)) i in
       color_r (color mesh) = red c /\ color_g (color mesh) = green c
       /\ color_b (color mesh) = blue c /\ color_a (color mesh)
                                          = double_to_float (double_lit 75 100).
Proof.
  intros Hk Hi.
  pose proof (process_markers_lookup img now tbl prs k pr 0 Hk ltac:(lia)) as H0.
  rewrite Nat.add_0_r, Hi in H0. unfold item_markers in H0. cbv zeta in H0.
  change ([?a; ?b] !! 0%nat) with (Some a) in H0.
  eexists. split; [exact H0|]. repeat split; reflexivity.
Qed.

Lemma checked_objects_small : checked_objects <= 2 ^ 32.
Proof. unfold checked_objects. lia. Qed.

(** Within one call, two pose results with different object ids get mesh
    markers of different colours, as long as the process has seen at most
    128 distinct objects (the table is reachable and has at most 128
    entries after the call). *)
Theorem distinct_objects_distinct_colours img now prs tbl k1 pr1 k2 pr2 :
  reachable tbl ->
  table_size (process img now prs tbl).2 <= checked_objects ->
  prs !! k1 = Some pr1 -> prs !! k2 = Some pr2 ->
  object_id pr1 <> object_id pr2 ->
  exists m1 m2,
    markers (marker_message (process img now prs tbl).1) !! (2 * k1)%nat = Some m1
    /\ markers (marker_message (process img now prs tbl).1) !! (2 * k2)%nat = Some m2
    /\ color m1 <> color m2.
Proof.
  intros Hreach Hsize Hk1 Hk2 Hne.
  pose proof checked_objects_small as Hsmall.
  assert (Hseq : sequentially_indexed (process img now prs tbl).2).
  { apply reachable_table_is_sequential; [by apply reachable_process|lia]. }
  rewrite process_table in Hsize, Hseq. destruct Hseq as (Hbelow & Hinj & _).
  destruct (index_objects_lookup prs tbl pr1) as [i1 Hi1];
    [eapply list_elem_of_lookup_2; eauto|].
  destruct (index_objects_lookup prs tbl pr2) as [i2 Hi2];
    [eapply list_elem_of_lookup_2; eauto|].
  destruct (process_mesh_colour img now prs tbl k1 pr1 i1 Hk1 Hi1)
    as (m1 & Hm1 & Hr1 & Hg1 & Hb1 & _).
  destruct (process_mesh_colour img now prs tbl k2 pr2 i2 Hk2 Hi2)
    as (m2 & Hm2 & Hr2 & Hg2 & Hb2 & _).
  exists m1, m2. split; [exact Hm1|]. split; [exact Hm2|].
  intros Hcol. apply Hne, (Hinj _ _ i1); [exact Hi1|].
  pose proof (Hbelow _ _ Hi1) as B1. pose proof (Hbelow _ _ Hi2) as B2.
  set (n := table_size (index_objects tbl prs)) in *.
  destruct (colours_good n ltac:(lia)) as [Hnd _].
  assert (Hsame : colour_of n i1 = colour_of n i2).
  { rewrite Hcol in Hr1, Hg1, Hb1.
    destruct (colour_of n i1), (colour_of n i2). simpl in *. congruence. }
  pose proof (colours_lookup n i1 B1) as L1.
  pose proof (colours_lookup n i2 B2) as L2.
  rewrite <- Hsame in L2.
  pose proof (NoDup_lookup _ _ _ _ Hnd L1 L2) as E.
  assert (i1 = i2) by lia. congruence.
Qed.

Lemma distinct_objects_distinct_colours_witness :
  let prs := [sample_pose_result "a"; sample_pose_result "b"] in
  (reachable ∅
   /\ table_size (process None (Duration 0) prs ∅).2 <= checked_objects
   /\ prs !! 0%nat = Some (sample_pose_result "a")
   /\ prs !! 1%nat = Some (sample_pose_result "b")
   /\ object_id (sample_pose_result "a") <> object_id (sample_pose_result "b"))
  /\ exists m1 m2,
       markers (marker_message (process None (Duration 0) prs ∅).1) !! 0%nat = Some m1
       /\ markers (marker_message (process None (Duration 0) prs ∅).1) !! 2%nat
          = Some m2
       /\ color m1 <> color m2.
Proof.
  assert (Hs : table_size (process None (Duration 0)
                  [sample_pose_result "a"; sample_pose_result "b"] ∅).2
               <= checked_objects) by (vm_compute; discriminate).
  assert (Hne : object_id (sample_pose_result "a")
                <> object_id (sample_pose_result "b")) by (simpl; discriminate).
  split; [split; [apply reachable_start|]; split; [exact Hs|];
          split; [reflexivity|]; split; [reflexivity|exact Hne]|].
  exact (distinct_objects_distinct_colours None (Duration 0)
           [sample_pose_result "a"; sample_pose_result "b"] ∅
           0 (sample_pose_result "a") 1 (sample_pose_result "b")
           reachable_start Hs eq_refl eq_refl Hne).
Defined.

(** The mesh colours are fully bright colours of saturation 0.7: for a
    process that has seen at most 128 distinct objects, one of the red,
    green and blue channels of every mesh marker is exactly 1, one is
    exactly the [float] next to 0.3, and the third lies between the two. *)
Theorem mesh_colours_are_bright img now prs tbl k pr :
  reachable tbl ->
  table_size (process img now prs tbl).2 <= checked_objects ->
  prs !! k = Some pr ->
  exists mesh,
    markers (marker_message (process img now prs tbl).1) !! (2 * k)%nat = Some mesh
    /\ let channels := [color_r (color mesh); color_g (color mesh);
                        color_b (color mesh)] in
       f32_1 ∈ channels /\ grey_level ∈ channels
       /\ Forall (fun x => SFleb grey_level x = true /\ SFleb x f32_1 = true) channels
       /\ within float_tolerance grey_level (3 # 10) = true.
Proof.
  intros Hreach Hsize Hk.
  pose proof checked_objects_small as Hsmall.
  assert (Hseq : sequentially_indexed (process img now prs tbl).2).
  { apply reachable_table_is_sequential; [by apply reachable_process|lia]. }
  rewrite process_table in Hsize, Hseq. destruct Hseq as (Hbelow & _ & _).
  destruct (index_objects_lookup prs tbl pr) as [i Hi];
    [eapply list_elem_of_lookup_2; eauto|].
  destruct (process_mesh_colour img now prs tbl k pr i Hk Hi)
    as (m & Hm & Hr & Hg & Hb & _).
  exists m. split; [exact Hm|]. cbv zeta. rewrite Hr, Hg, Hb.
  pose proof (Hbelow _ _ Hi) as B.
  set (n := table_size (index_objects tbl prs)) in *.
  destruct (colours_good n ltac:(lia)) as [_ Hbright].
  destruct (bright_spec (colour_of n i)) as (H1 & Hgrey & Hall).
  { apply Hbright. eapply list_elem_of_lookup_2. by apply colours_lookup. }
  split; [|split; [|split; [exact Hall|reflexivity]]].
  - destruct H1 as [<-|[<-|<-]]; [left|right; left|right; right; left].
  - destruct Hgrey as [<-|[<-|<-]]; [left|right; left|right; right; left].
Qed.

Lemma mesh_colours_are_bright_witness :
  let prs := [sample_pose_result "a"; sample_pose_result "b"] in
  (reachable ∅
   /\ table_size (process None (Duration 0) prs ∅).2 <= checked_objects
   /\ prs !! 1%nat = Some (sample_pose_result "b"))
  /\ exists mesh,
       markers (marker_message (process None (Duration 0) prs ∅).1) !! 2%nat
       = Some mesh
       /\ f32_1 ∈ [color_r (color mesh); color_g (color mesh); color_b (color mesh)].
Proof.
  assert (Hs : table_size (process None (Duration 0)
                  [sample_pose_result "a"; sample_pose_result "b"] ∅).2
               <= checked_objects) by (vm_compute; discriminate).
  split; [split; [apply reachable_start|]; split; [exact Hs|reflexivity]|].
  destruct (mesh_colours_are_bright None (Duration 0)
              [sample_pose_result "a"; sample_pose_result "b"] ∅ 1
              (sample_pose_result "b") reachable_start Hs eq_refl)
    as (mesh & Hm & H1 & _).
  exists mesh. split; [exact Hm|exact H1].
Defined.

(** Between two calls that add no object id, an object keeps its colour:
    when every object id of the second call has an entry after the first
    call, the mesh markers of the same object id have the same colour in
    both calls, whatever the poses and the other pose results are. *)
Theorem colour_is_stable_without_new_objects
    img1 now1 prs1 img2 now2 prs2 tbl k1 pr1 k2 pr2 :
  let call1 := process img1 now1 prs1 tbl in
  let call2 := process img2 now2 prs2 call1.2 in
  (forall pr, pr ∈ prs2 -> is_Some (call1.2 !! object_id pr)) ->
  prs1 !! k1 = Some pr1 -> prs2 !! k2 = Some pr2 ->
  object_id pr1 = object_id pr2 ->
  exists m1 m2,
    markers (marker_message call1.1) !! (2 * k1)%nat = Some m1
    /\ markers (marker_message call2.1) !! (2 * k2)%nat = Some m2
    /\ color m1 = color m2.
Proof.
  intros call1 call2 Hknown Hk1 Hk2 Hid. unfold call2, call1 in *.
  rewrite process_table in *.
  set (tbl1 := index_objects tbl prs1) in *.
  assert (Htbl2 : index_objects tbl1 prs2 = tbl1) by by apply index_objects_known.
  destruct (index_objects_lookup prs1 tbl pr1) as [i Hi];
    [eapply list_elem_of_lookup_2; eauto|].
  fold tbl1 in Hi.
  destruct (process_mesh_colour img1 now1 prs1 tbl k1 pr1 i Hk1 Hi)
    as (m1 & Hm1 & Hr1 & Hg1 & Hb1 & Ha1).
  destruct (process_mesh_colour img2 now2 prs2 tbl1 k2 pr2 i Hk2)
    as (m2 & Hm2 & Hr2 & Hg2 & Hb2 & Ha2).
  { rewrite Htbl2, <- Hid. exact Hi. }
  exists m1, m2. split; [exact Hm1|]. split; [exact Hm2|].
  rewrite Htbl2 in Hr2, Hg2, Hb2. fold tbl1 in Hr1, Hg1, Hb1.
  destruct (color m1), (color m2).
  cbn [color_r color_g color_b color_a] in *. congruence.
Qed.

Lemma colour_is_stable_without_new_objects_witness :
  let call1 := process None (Duration 0)
                 [sample_pose_result "a"; sample_pose_result "b"] ∅ in
  let call2 := process None (Duration 1) [sample_pose_result "b"] call1.2 in
  exists m1 m2,
    markers (marker_message call1.1) !! 2%nat = Some m1
    /\ markers (marker_message call2.1) !! 0%nat = Some m2
    /\ color m1 = color m2.
Proof.
  apply (colour_is_stable_without_new_objects None (Duration 0)
           [sample_pose_result "a"; sample_pose_result "b"] None (Duration 1)
           [sample_pose_result "b"] ∅ 1 (sample_pose_result "b")
           0 (sample_pose_result "b")).
  - intros pr Hpr. apply list_elem_of_singleton in Hpr as ->.
    vm_compute. eauto.
  - reflexivity.
  - reflexivity.
  - reflexivity.
Defined.

(** When a call brings a new object, the colours of the known objects
    change, since the hue divides the circle by the number of objects. *)
Example colour_changes_with_new_object :
  let call1 := process None (Duration 0)
                 [sample_pose_result "a"; sample_pose_result "b"] ∅ in
  let call2 := process None (Duration 1)
                 [sample_pose_result "b"; sample_pose_result "c"] call1.2 in
  (color <$> markers (marker_message call1.1) !! 2%nat)
  <> (color <$> markers (marker_message call2.1) !! 0%nat).
Proof. vm_compute. discriminate. Qed.

(** ** [hsv2rgb] over whole degrees *)

Lemma degrees_0_359_checked :
  forallb (fun h => bright (colour_at_degrees h)) (seqZ 0 360) = true.
Proof. vm_compute. reflexivity. Qed.

Lemma degrees_360_3600_checked :
  forallb (fun h => RGB_same (colour_at_degrees h) grey) (seqZ 360 3241) = true.
Proof. vm_compute. reflexivity. Qed.

Lemma degrees_negative_checked :
  forallb (fun h => red_with_low_green (colour_at_degrees h)) (seqZ (-3600) 3600)
  = true.
Proof. vm_compute. reflexivity. Qed.

(** For every hue of a whole number of degrees from 0 to 359, with
    saturation 0.7 and value 1, [hsv2rgb] gives a colour with one channel
    exactly 1 (the value), one channel exactly the [float] next to 0.3
    (value minus chroma) and the third between the two. *)
Theorem hsv2rgb_in_range_is_bright h :
  0 <= h < 360 ->
  let c := hsv2rgb (F32.of_Z h) saturation value in
  (red c = f32_1 \/ green c = f32_1 \/ blue c = f32_1)
  /\ (red c = grey_level \/ green c = grey_level \/ blue c = grey_level)
  /\ Forall (fun x => SFleb grey_level x = true /\ SFleb x f32_1 = true)
       [red c; green c; blue c].
Proof.
  intros Hh. cbv zeta. apply (bright_spec (colour_at_degrees h)).
  apply (forallb_seqZ _ 0 360 h degrees_0_359_checked). lia.
Qed.

Lemma hsv2rgb_in_range_is_bright_witness :
  0 <= 90 < 360
  /\ (red (hsv2rgb (F32.of_Z 90) saturation value) = f32_1
      \/ green (hsv2rgb (F32.of_Z 90) saturation value) = f32_1
      \/ blue (hsv2rgb (F32.of_Z 90) saturation value) = f32_1).
Proof.
  assert (H : 0 <= 90 < 360) by lia.
  split; [exact H|]. exact (proj1 (hsv2rgb_in_range_is_bright 90 H)).
Defined.

(** [hsv2rgb] does not wrap the hue: a hue of 360 degrees or more (checked
    for the whole degrees up to 3600) falls through the six sectors and
    gives the grey (0.3, 0.3, 0.3), not the red of hue 0. *)
Theorem hsv2rgb_beyond_360_is_grey h :
  360 <= h <= 3600 ->
  hsv2rgb (F32.of_Z h) saturation value = grey.
Proof.
  intros Hh.
  pose proof (forallb_seqZ _ 360 3241 h degrees_360_3600_checked ltac:(lia)) as H.
  unfold RGB_same in H.
  apply andb_prop in H as [H Hb]. apply andb_prop in H as [Hr Hg].
  apply SF_same_eq in Hr, Hg, Hb. unfold colour_at_degrees in *.
  destruct (hsv2rgb (F32.of_Z h) saturation value). simpl in *.
  unfold grey. congruence.
Qed.

Lemma hsv2rgb_beyond_360_is_grey_witness :
  360 <= 360 <= 3600 /\ hsv2rgb (F32.of_Z 360) saturation value = grey.
Proof.
  assert (H : 360 <= 360 <= 3600) by lia.
  split; [exact H|]. exact (hsv2rgb_beyond_360_is_grey 360 H).
Defined.

(** A negative hue (checked for the whole degrees down to -3600) always
    lands in the first sector: red is 1, blue is the [float] next to 0.3,
    and green is at or below that level, outside the range of the other
    colours; for -90 degrees it is negative. *)
Theorem hsv2rgb_negative_hue h :
  -3600 <= h < 0 ->
  let c := hsv2rgb (F32.of_Z h) saturation value in
  red c = f32_1 /\ blue c = grey_level /\ SFleb (green c) grey_level = true.
Proof.
  intros Hh. cbv zeta.
  pose proof (forallb_seqZ _ (-3600) 3600 h degrees_negative_checked ltac:(lia)) as H.
  unfold red_with_low_green, colour_at_degrees in H.
  apply andb_prop in H as [H Hg]. apply andb_prop in H as [Hr Hb].
  apply SF_same_eq in Hr, Hb. auto.
Qed.

Lemma hsv2rgb_negative_hue_witness :
  -3600 <= -90 < 0
  /\ red (hsv2rgb (F32.of_Z (-90)) saturation value) = f32_1
  /\ SFltb (green (hsv2rgb (F32.of_Z (-90)) saturation value)) f32_0 = true.
Proof.
  assert (H : -3600 <= -90 < 0) by lia.
  split; [exact H|]. split; [exact (proj1 (hsv2rgb_negative_hue (-90) H))|].
  vm_compute. reflexivity.
Defined.

(** A hue that is not a number, or is plus infinity, is below no sector
    bound: for every saturation and value the three channels get the same
    level, value minus chroma, and the NaN of the hue does not reach the
    colour. *)
Theorem hsv2rgb_nan_hue s v :
  let m := F32.add f32_0 (F32.sub v (F32.mul v s)) in
  hsv2rgb S754_nan s v = {| red := m; green := m; blue := m |}
  /\ hsv2rgb (S754_infinity false) s v = {| red := m; green := m; blue := m |}.
Proof. split; reflexivity. Qed.
